(** * Connection state handler of the container loader

    A shallow embedding of [ConnectionStateHandler] and of the
    [ConnectionStateCatchup] adapter (connectionStateHandler.ts), with the
    properties of the reconnect state machine proved over it.

    The handler is a TypeScript class whose methods mutate the object, call
    back into their owner, write telemetry and fail assertions by throwing.
    It is modelled with a small monad: the state is threaded explicitly,
    every call to a collaborator is appended to a log, and a failed
    [assert] stops the method while KEEPING the mutations made so far,
    as a JavaScript exception does. *)

From stdpp Require Import base option strings gmap list.
From Stdlib Require Import NArith.

Set Default Proof Using "Type".
Open Scope string_scope.
Open Scope list_scope.

(** ** Data *)

(** Modelled from the spec: the enum [ConnectionState] is imported from
    ./connectionState, which is not part of the sources at hand; section 3
    of the specification gives its four values. The handler only ever
    assigns [Disconnected], [CatchingUp] and [Connected]. *)
Inductive ConnectionState : Set :=
  | Disconnected
  | EstablishingConnection
  | CatchingUp
  | Connected.

#[global] Instance ConnectionState_eq_dec : EqDecision ConnectionState.
Proof. solve_decision. Defined.

(** [a === b] on connection states. *)
Definition sameState (a b : ConnectionState) : bool :=
  match a, b with
  | Disconnected, Disconnected
  | EstablishingConnection, EstablishingConnection
  | CatchingUp, CatchingUp
  | Connected, Connected => true
  | _, _ => false
  end.

(** [ConnectionMode] of protocol-definitions: the strings "read" and "write". *)
Inductive ConnectionMode : Set := ReadMode | WriteMode.

(** [connectionMode === "write"] *)
Definition isWrite (m : ConnectionMode) : bool :=
  match m with WriteMode => true | ReadMode => false end.

(** The [source] argument of [applyForConnectedState]. *)
Inductive Source : Set :=
  | src_removeMemberEvent
  | src_addMemberEvent
  | src_timeout
  | src_containerSaved.

#[global] Instance Source_eq_dec : EqDecision Source.
Proof. solve_decision. Defined.

Definition sourceName (s : Source) : string :=
  match s with
  | src_removeMemberEvent => "removeMemberEvent"
  | src_addMemberEvent => "addMemberEvent"
  | src_timeout => "timeout"
  | src_containerSaved => "containerSaved"
  end.

(** A member of the quorum ([ILocalSequencedClient]); the handler reads
    nothing of it and writes the one flag [shouldHaveLeft]. *)
Record ILocalSequencedClient : Set := mkClient {
  sequenceNumber : N;
  shouldHaveLeft : bool
}.

(** [IQuorumClients], as far as the handler sees it: [getMember]. *)
Abbreviation Quorum := (gmap string ILocalSequencedClient).

Definition getMember (q : Quorum) (clientId : string)
  : option ILocalSequencedClient := q !! clientId.

(** [x !== undefined] *)
Definition defined {A} (x : option A) : bool :=
  match x with Some _ => true | None => false end.

(** [quorumClients?.getMember(id) !== undefined] *)
Definition hasMember (q : option Quorum) (clientId : string) : bool :=
  match q with
  | Some q => defined (getMember q clientId)
  | None => false
  end.

(** Values of the [details] objects handed to telemetry. *)
Inductive JValue : Set :=
  | JUndefined
  | JBool (b : bool)
  | JString (s : string).

Definition JOpt (o : option string) : JValue :=
  match o with Some s => JString s | None => JUndefined end.

Abbreviation Details := (list (string * JValue)).

(** The two timers of the handler and the calls made on them. *)
Inductive TimerName : Set := PrevClientLeftTimer | JoinOpTimer.
Inductive TimerCall : Set := TimerStart | TimerClear | TimerRestart.

(** The argument of a failed [assert]: a short code or a message. *)
Inductive AssertTag : Set :=
  | Code (n : N)
  | Message (s : string).

(** Calls to collaborators, in the order they are made. *)
Inductive Effect : Set :=
  (** [handler.connectionStateChanged(value, oldState, reason)] *)
  | ConnectionStateChanged (value oldState : ConnectionState) (reason : option string)
  (** [logger.sendErrorEvent({ eventName, value })] *)
  | SendErrorEvent (eventName : string) (value : ConnectionState)
  (** [logger.sendTelemetryEvent({ eventName, category, details })] *)
  | SendTelemetryEvent (eventName : string) (category : option string) (details : Details)
  (** [handler.logConnectionIssue(eventName, details)] *)
  | LogConnectionIssue (eventName : string) (details : option Details)
  (** [PerformanceEvent.start(logger, { eventName, details })] *)
  | PerformanceEventStart (eventName : string) (details : Details)
  (** [waitEvent.end({ source })] *)
  | PerformanceEventEnd (source : Source)
  (** a call on one of the two [Timer] objects *)
  | OnTimer (t : TimerName) (c : TimerCall)
  (** calls of the catch-up adapter on its monitor *)
  | NewCatchUpMonitor
  | MonitorOnCaughtUp
  | MonitorDispose.

(** ** The monad of methods *)

Inductive Outcome (A : Type) : Type :=
  | Returned (a : A)
  | Threw (tag : AssertTag).
Arguments Returned {A} a.
Arguments Threw {A} tag.

Record Res (S A : Type) : Type := mkRes {
  after : S;
  calls : list Effect;
  outcome : Outcome A
}.
Arguments mkRes {S A} after calls outcome.
Arguments after {S A} r.
Arguments calls {S A} r.
Arguments outcome {S A} r.

Definition M (S A : Type) : Type := S → Res S A.

Definition retM {S A} (a : A) : M S A := λ s, mkRes s [] (Returned a).

Definition bindM {S A B} (m : M S A) (k : A → M S B) : M S B := λ s,
  match m s with
  | mkRes s1 calls1 (Returned a) =>
      match k a s1 with
      | mkRes s2 calls2 o => mkRes s2 (calls1 ++ calls2) o
      end
  | mkRes s1 calls1 (Threw tag) => mkRes s1 calls1 (Threw tag)
  end.

Notation "x <- m ;; k" := (bindM m (λ x, k))
  (at level 100, m at next level, right associativity, only parsing).
Notation "m ;;; k" := (bindM m (λ _, k))
  (at level 100, right associativity, only parsing).

Definition getM {S} : M S S := λ s, mkRes s [] (Returned s).
Definition modifyM {S} (f : S → S) : M S unit := λ s, mkRes (f s) [] (Returned tt).
Definition call {S} (e : Effect) : M S unit := λ s, mkRes s [e] (Returned tt).

(** [assert(condition, tag)] of common-utils: throws when the condition is false. *)
Definition assert {S} (condition : bool) (tag : AssertTag) : M S unit := λ s,
  mkRes s [] (if condition then Returned tt else Threw tag).

Definition when {S} (condition : bool) (m : M S unit) : M S unit :=
  if condition then m else retM tt.

Definition returned {S A} (r : Res S A) : bool :=
  match outcome r with Returned _ => true | Threw _ => false end.

(** ** ConnectionStateHandler *)

(** Modelled from the spec: the class [Timer] of common-utils is not part of
    the sources at hand. The handler uses [hasTimer], [start], [clear] and
    [restart]; by section 3 both timers are one-shot, restartable and
    idempotent to cancel, so a timer is its [hasTimer] flag, raised by
    [start] and [restart] and lowered by [clear] and by firing. Each call is
    also logged, which tells a restart from a timer left alone. *)
Record Handler : Set := mkHandler {
  _connectionState : ConnectionState;
  _clientId : option string;
  _pendingClientId : option string;
  (** [prevClientLeftTimer.hasTimer] *)
  prevClientLeftTimer : bool;
  (** [joinOpTimer.hasTimer] *)
  joinOpTimer : bool;
  (** [waitEvent !== undefined] *)
  waitEvent : bool
}.

(** The handler together with what its [IConnectionStateHandlerInputs]
    callbacks answer: [quorumClients()] and [shouldClientJoinWrite()]. The
    quorum is shared with its owner: the handler writes [shouldHaveLeft]
    into the member object it was given. *)
Record World : Type := mkWorld {
  handler : Handler;
  quorumClients : option Quorum;
  shouldClientJoinWrite : bool
}.

Definition connectionState (w : World) : ConnectionState := _connectionState (handler w).
Definition clientId (w : World) : option string := _clientId (handler w).
Definition pendingClientId (w : World) : option string := _pendingClientId (handler w).
Definition waitingForLeaveOp (w : World) : bool := prevClientLeftTimer (handler w).

Definition onHandler (f : Handler → Handler) (w : World) : World :=
  mkWorld (f (handler w)) (quorumClients w) (shouldClientJoinWrite w).

Definition set_connectionState (v : ConnectionState) (h : Handler) : Handler :=
  mkHandler v (_clientId h) (_pendingClientId h) (prevClientLeftTimer h) (joinOpTimer h) (waitEvent h).
Definition set_clientId (v : option string) (h : Handler) : Handler :=
  mkHandler (_connectionState h) v (_pendingClientId h) (prevClientLeftTimer h) (joinOpTimer h) (waitEvent h).
Definition set_pendingClientId (v : option string) (h : Handler) : Handler :=
  mkHandler (_connectionState h) (_clientId h) v (prevClientLeftTimer h) (joinOpTimer h) (waitEvent h).
Definition set_prevClientLeftTimer (v : bool) (h : Handler) : Handler :=
  mkHandler (_connectionState h) (_clientId h) (_pendingClientId h) v (joinOpTimer h) (waitEvent h).
Definition set_joinOpTimer (v : bool) (h : Handler) : Handler :=
  mkHandler (_connectionState h) (_clientId h) (_pendingClientId h) (prevClientLeftTimer h) v (waitEvent h).
Definition set_waitEvent (v : bool) (h : Handler) : Handler :=
  mkHandler (_connectionState h) (_clientId h) (_pendingClientId h) (prevClientLeftTimer h) (joinOpTimer h) v.

(** [client.shouldHaveLeft = true] on the member object held by the quorum. *)
Definition markShouldHaveLeft (c : string) (w : World) : World :=
  mkWorld (handler w)
          (alter (λ m, mkClient (sequenceNumber m) true) c <$> quorumClients w)
          (shouldClientJoinWrite w).

(** [new ConnectionStateHandler(handler, clientId)] *)
Definition newHandler (clientId : option string) : Handler :=
  mkHandler Disconnected clientId None false false false.

Definition prevClientLeftTimer_clear : M World unit :=
  call (OnTimer PrevClientLeftTimer TimerClear);;;
  modifyM (onHandler (set_prevClientLeftTimer false)).

Definition prevClientLeftTimer_restart : M World unit :=
  call (OnTimer PrevClientLeftTimer TimerRestart);;;
  modifyM (onHandler (set_prevClientLeftTimer true)).

Definition startJoinOpTimer : M World unit :=
  w <- getM;;
  assert (negb (joinOpTimer (handler w))) (Code 0x234);;;
  call (OnTimer JoinOpTimer TimerStart);;;
  modifyM (onHandler (set_joinOpTimer true)).

Definition stopJoinOpTimer : M World unit :=
  w <- getM;;
  assert (joinOpTimer (handler w)) (Code 0x235);;;
  call (OnTimer JoinOpTimer TimerClear);;;
  modifyM (onHandler (set_joinOpTimer false)).

Definition dispose : M World unit :=
  w <- getM;;
  assert (negb (joinOpTimer (handler w))) (Code 0x2a5);;;
  prevClientLeftTimer_clear.

(** The quorum member of [_clientId], when there is one: the local
    [client] of [setConnectionState]. *)
Definition currentClient (w : World) : option string :=
  match clientId w with
  | Some c => if hasMember (quorumClients w) c then Some c else None
  | None => None
  end.

Definition noWaitOnDisconnected (inQuorum : bool) (w : World) : Effect :=
  SendTelemetryEvent "noWaitOnDisconnected" None
    [("inQuorum", JBool inQuorum);
     ("waitingForLeaveOp", JBool (waitingForLeaveOp w));
     ("hadOutstandingOps", JBool (shouldClientJoinWrite w))].

Definition setConnectionState (value : ConnectionState) (reason : option string)
  : M World unit :=
  w <- getM;;
  if sameState (connectionState w) value then
    (* Already in the desired state - exit early *)
    call (SendErrorEvent "setConnectionStateSame" value)
  else
    let oldState := connectionState w in
    modifyM (onHandler (set_connectionState value));;;
    let client := currentClient w in
    (if sameState value Connected then
       assert (sameState oldState CatchingUp) (Code 0x1d8);;;
       (match client with
        | Some c => modifyM (markShouldHaveLeft c)
        | None => retM tt
        end);;;
       modifyM (onHandler (set_clientId (pendingClientId w)))
     else if sameState value Disconnected then
       modifyM (onHandler (set_pendingClientId None));;;
       when (joinOpTimer (handler w)) stopJoinOpTimer;;;
       if defined client && shouldClientJoinWrite w
          && negb (prevClientLeftTimer (handler w))
       then prevClientLeftTimer_restart
       else w' <- getM;; call (noWaitOnDisconnected (defined client) w')
     else retM tt);;;
    (* Report transition before we propagate event across layers *)
    w' <- getM;;
    call (ConnectionStateChanged (connectionState w') oldState reason).

Definition connectedStateRejected (source : Source) (w : World) : Effect :=
  SendTelemetryEvent "connectedStateRejected"
    (Some (match source with src_timeout => "error" | _ => "generic" end))
    [("source", JString (sourceName source));
     ("pendingClientId", JOpt (pendingClientId w));
     ("clientId", JOpt (clientId w));
     ("waitingForLeaveOp", JBool (waitingForLeaveOp w));
     ("inQuorum", JBool (hasMember (quorumClients w) (default "" (pendingClientId w))))].

(** The condition under which [applyForConnectedState] moves to Connected. *)
Definition mayConnect (w : World) : bool :=
  bool_decide (pendingClientId w ≠ clientId w)
  && match pendingClientId w with
     | Some p => hasMember (quorumClients w) p
     | None => false
     end
  && negb (waitingForLeaveOp w).

Definition applyForConnectedState (source : Source) : M World unit :=
  w <- getM;;
  assert (defined (quorumClients w)) (Code 0x236);;;
  assert (negb (waitingForLeaveOp w)
          || match clientId w with
             | Some c => hasMember (quorumClients w) c
             | None => false
             end) (Code 0x2e2);;;
  if mayConnect w then
    when (waitEvent (handler w)) (call (PerformanceEventEnd source));;;
    setConnectionState Connected None
  else
    call (connectedStateRejected source w).

Definition containerSaved : M World unit :=
  w <- getM;;
  when (waitingForLeaveOp w)
    (prevClientLeftTimer_clear;;;
     applyForConnectedState src_containerSaved).

Definition receivedAddMemberEvent (id : string) : M World unit :=
  w <- getM;;
  when (bool_decide (Some id = pendingClientId w))
    ((if joinOpTimer (handler w) then stopJoinOpTimer
      else call (LogConnectionIssue "ReceivedJoinOp" None));;;
     when (waitingForLeaveOp w)
       (call (PerformanceEventStart "WaitBeforeClientLeave"
                [("waitOnClientId", JOpt (clientId w));
                 ("hadOutstandingOps", JBool (shouldClientJoinWrite w))]);;;
        modifyM (onHandler (set_waitEvent true)));;;
     applyForConnectedState src_addMemberEvent).

Definition receivedRemoveMemberEvent (id : string) : M World unit :=
  w <- getM;;
  when (bool_decide (clientId w = Some id))
    (prevClientLeftTimer_clear;;;
     applyForConnectedState src_removeMemberEvent).

Definition receivedDisconnectEvent (reason : string) : M World unit :=
  setConnectionState Disconnected (Some reason).

(** [IConnectionDetails], of which the handler reads [clientId]. *)
Record IConnectionDetails : Set := mkDetails { details_clientId : string }.

Definition receivedConnectEvent (connectionMode : ConnectionMode)
    (details : IConnectionDetails) : M World unit :=
  w <- getM;;
  let oldState := connectionState w in
  modifyM (onHandler (set_connectionState CatchingUp));;;
  let writeConnection := isWrite connectionMode in
  assert (negb (shouldClientJoinWrite w) || writeConnection) (Code 0x30a);;;
  assert (negb (waitingForLeaveOp w) || writeConnection) (Code 0x2a6);;;
  let quorum := quorumClients w in
  modifyM (onHandler (set_pendingClientId (Some (details_clientId details))));;;
  call (ConnectionStateChanged CatchingUp oldState None);;;
  let waitingForJoinOp :=
    writeConnection && negb (hasMember quorum (details_clientId details)) in
  if waitingForJoinOp then startJoinOpTimer
  else if negb (waitingForLeaveOp w) then setConnectionState Connected None
  else retM tt.

(** The callback given to [prevClientLeftTimer]. *)
Definition prevClientLeftTimer_callback : M World unit :=
  w <- getM;;
  assert (negb (sameState (connectionState w) Connected)) (Code 0x2ac);;;
  applyForConnectedState src_timeout.

(** The callback given to [joinOpTimer]. *)
Definition joinOpTimer_callback : M World unit :=
  w <- getM;;
  if negb (sameState (connectionState w) CatchingUp) then retM tt
  else
    call (LogConnectionIssue "NoJoinOp"
            (Some [("quorumInitialized", JBool (defined (quorumClients w)));
                   ("pendingClientId", JOpt (pendingClientId w));
                   ("inQuorum", JBool (hasMember (quorumClients w)
                                         (default "" (pendingClientId w))));
                   ("waitingForLeaveOp", JBool (waitingForLeaveOp w))])).

(** [initProtocol(protocol)]: the two listeners are registered on
    [protocol.quorum] (they are the membership events below), and the
    leave timer is armed for a client id carried over from an earlier
    container. *)
Definition initProtocol (protocolQuorum : Quorum) : M World unit :=
  w <- getM;;
  when (match clientId w with
        | Some c => defined (getMember protocolQuorum c)
        | None => false
        end)
    prevClientLeftTimer_restart.

(** ** The handler in its environment *)

(** Modelled from the spec: the quorum of protocol-base and the owner of
    the handler are not part of the sources at hand; sections 5 and 6 and
    the glossary give what they do. The quorum and the timers belong to
    the environment: a membership event changes the quorum and then runs
    the listener that [initProtocol] registered, which happens with the
    quorum becoming available; an armed timer that expires is cleared by
    [Timer] itself before its callback runs; a callback that was queued
    before the timer was cancelled may still run later (the comment in
    the [joinOpTimer] callback reports it), whatever the timer has become
    since. The owner's answer to [shouldClientJoinWrite()] changes as its
    ops are acknowledged. All events are delivered one at a time. *)
Inductive Event : Type :=
  | InitProtocol (q : Quorum)
  | AddMember (id : string) (m : ILocalSequencedClient)
  | RemoveMember (id : string)
  | PrevClientLeftTimerFires
  | PrevClientLeftTimerLate
  | JoinOpTimerFires
  | JoinOpTimerLate
  | Connect (mode : ConnectionMode) (details : IConnectionDetails)
  | Disconnect (reason : string)
  | ContainerSaved
  | Dispose
  | OutstandingOps (b : bool).

Definition set_quorumClients (q : option Quorum) (w : World) : World :=
  mkWorld (handler w) q (shouldClientJoinWrite w).
Definition set_shouldClientJoinWrite (b : bool) (w : World) : World :=
  mkWorld (handler w) (quorumClients w) b.

Definition step (e : Event) : M World unit :=
  w <- getM;;
  match e with
  | InitProtocol q =>
      match quorumClients w with
      | None => modifyM (set_quorumClients (Some q));;; initProtocol q
      | Some _ => retM tt
      end
  | AddMember id m =>
      match quorumClients w with
      | Some q => modifyM (set_quorumClients (Some (<[id:=m]> q)));;;
                  receivedAddMemberEvent id
      | None => retM tt
      end
  | RemoveMember id =>
      match quorumClients w with
      | Some q => modifyM (set_quorumClients (Some (delete id q)));;;
                  receivedRemoveMemberEvent id
      | None => retM tt
      end
  | PrevClientLeftTimerFires =>
      when (prevClientLeftTimer (handler w))
        (modifyM (onHandler (set_prevClientLeftTimer false));;;
         prevClientLeftTimer_callback)
  | PrevClientLeftTimerLate => prevClientLeftTimer_callback
  | JoinOpTimerFires =>
      when (joinOpTimer (handler w))
        (modifyM (onHandler (set_joinOpTimer false));;;
         joinOpTimer_callback)
  | JoinOpTimerLate => joinOpTimer_callback
  | Connect mode details => receivedConnectEvent mode details
  | Disconnect reason => receivedDisconnectEvent reason
  | ContainerSaved => containerSaved
  | Dispose => dispose
  | OutstandingOps b => modifyM (set_shouldClientJoinWrite b)
  end.

(** A sequence of events; an event whose method threw leaves the handler as
    the exception found it, and later events are still delivered. *)
Fixpoint run (events : list Event) (w : World) : World * list Effect :=
  match events with
  | [] => (w, [])
  | e :: events =>
      let r := step e w in
      let rest := run events (after r) in
      (rest.1, calls r ++ rest.2)
  end.

(** A freshly constructed handler, before the protocol is initialised. *)
Definition initialWorld (clientId : option string) (outstandingOps : bool) : World :=
  mkWorld (newHandler clientId) None outstandingOps.

Definition reachable (w : World) : Prop :=
  ∃ clientId outstandingOps events,
    w = (run events (initialWorld clientId outstandingOps)).1.

(** The transitions among the calls, as pairs (old state, new state). *)
Definition transitions (l : list Effect) : list (ConnectionState * ConnectionState) :=
  omap (λ e, match e with
             | ConnectionStateChanged value oldState _ => Some (oldState, value)
             | _ => None
             end) l.

(** The legal transitions of section 3. *)
Definition legal (oldState value : ConnectionState) : bool :=
  match oldState, value with
  | Disconnected, CatchingUp
  | CatchingUp, Connected
  | CatchingUp, Disconnected
  | Connected, Disconnected => true
  | _, _ => false
  end.

(** [walk s ts]: the transitions [ts] follow one another from state [s]
    along legal edges. *)
Fixpoint walk (s : ConnectionState) (ts : list (ConnectionState * ConnectionState)) : bool :=
  match ts with
  | [] => true
  | (oldState, value) :: ts =>
      sameState oldState s && legal oldState value && walk value ts
  end.

(** The state a walk ends in. *)
Definition lastState (s : ConnectionState) (ts : list (ConnectionState * ConnectionState))
  : ConnectionState :=
  foldl (λ _ t, t.2) s ts.

(** ** Closed forms of the two transitions *)

(** Whether a disconnect arms the leave timer. *)
Definition armsLeaveTimer (w : World) : bool :=
  defined (currentClient w) && shouldClientJoinWrite w
  && negb (prevClientLeftTimer (handler w)).

(** The handler after [setConnectionState(Disconnected)] went through. *)
Definition disconnected (arms : bool) (h : Handler) : Handler :=
  mkHandler Disconnected (_clientId h) None (prevClientLeftTimer h || arms) false (waitEvent h).

(** The world after [setConnectionState(Connected)] went through. *)
Definition connected (w : World) : World :=
  onHandler (set_clientId (pendingClientId w))
    (match currentClient w with
     | Some c => markShouldHaveLeft c
     | None => id
     end (onHandler (set_connectionState Connected) w)).

(** ** What holds of every reachable world *)

Record consistent (w : World) : Prop := mkConsistent {
  (** no pending id while disconnected *)
  consistent_disconnected :
    connectionState w = Disconnected → pendingClientId w = None;
  (** while connected the pending id is the live one *)
  consistent_connected :
    connectionState w = Connected →
    ∃ c, clientId w = Some c ∧ pendingClientId w = Some c;
  (** the leave timer only waits for a client of the quorum *)
  consistent_leave :
    prevClientLeftTimer (handler w) = true →
    ∃ c, clientId w = Some c ∧ hasMember (quorumClients w) c = true;
  (** the join timer does not run while disconnected *)
  consistent_join :
    joinOpTimer (handler w) = true → connectionState w ≠ Disconnected;
  (** the state is one of the three the handler assigns *)
  consistent_state : connectionState w ≠ EstablishingConnection
}.

(** No transition of [ts] is to CatchingUp. *)
Definition noneToCatchingUp (ts : list (ConnectionState * ConnectionState)) : bool :=
  forallb (λ t, negb (sameState t.2 CatchingUp)) ts.

(** Every transition of [ts] to Connected is from CatchingUp. *)
Definition connectedFromCatchingUp (ts : list (ConnectionState * ConnectionState)) : bool :=
  forallb (λ t, implb (sameState t.2 Connected) (sameState t.1 CatchingUp)) ts.

(** What P6 asks of the calls [l] made from state [s] when they leave the
    handler in state [s']. *)
Record validWalk (s : ConnectionState) (l : list Effect) (s' : ConnectionState)
  : Prop := mkValidWalk {
  validWalk_walk : walk s (transitions l) = true;
  validWalk_last : lastState s (transitions l) = s';
  validWalk_noCatchingUp : noneToCatchingUp (transitions l) = true;
  validWalk_connected : connectedFromCatchingUp (transitions l) = true
}.

(** The world once [receivedConnectEvent] has recorded the connection. *)
Definition connecting (details : IConnectionDetails) (w : World) : World :=
  onHandler (set_pendingClientId (Some (details_clientId details)))
    (onHandler (set_connectionState CatchingUp) w).

(** A session in progress: connected as "c_old", which the quorum knows,
    with ops outstanding. *)
Definition sessionWorld : World :=
  mkWorld (mkHandler Connected (Some "c_old") (Some "c_old") false false false)
          (Some {["c_old" := mkClient 1 false]}) true.

(** The reconnect that follows its loss: "c_new" has joined the quorum and
    the leave of "c_old" is awaited (scenario S4 before the leave). *)
Definition reconnectingWorld : World :=
  mkWorld (mkHandler CatchingUp (Some "c_old") (Some "c_new") true false true)
          (Some (<["c_new" := mkClient 2 false]> {["c_old" := mkClient 1 false]})) true.

(** The events of property P6: membership events, timers and disconnects. *)
Definition membershipTimerOrDisconnect (e : Event) : bool :=
  match e with
  | AddMember _ _ | RemoveMember _
  | PrevClientLeftTimerFires | PrevClientLeftTimerLate
  | JoinOpTimerFires | JoinOpTimerLate
  | Disconnect _ => true
  | _ => false
  end.

(** ** ConnectionStateCatchup *)

Module Catchup.

(** Modelled from the spec: the class [CatchUpMonitor] is imported from
    ./catchUpMonitor, which is not part of the sources at hand. By
    section 4.2 its [on("caughtUp", listener)] registers a one-shot
    listener, the signal is never delivered synchronously, and [dispose]
    cancels it. The only listener the adapter registers is
    [transitionToConnectedState], so the monitor is the number of times
    it is registered. *)
Record CatchUpMonitor : Set := mkMonitor { caughtUpListeners : nat }.

(** The adapter's own fields; [pimpl] is the wrapped handler. *)
Record State : Set := mkState {
  _connectionState : ConnectionState;
  catchUpMonitor : option CatchUpMonitor
}.

Definition set_connectionState (v : ConnectionState) (g : State) : State :=
  mkState v (catchUpMonitor g).
Definition set_catchUpMonitor (m : option CatchUpMonitor) (g : State) : State :=
  mkState (_connectionState g) m.

(** [new ConnectionStateCatchup(...)], around a handler in [pimplState]. *)
Definition new (pimplState : ConnectionState) : State := mkState pimplState None.

(** The listener; [pimplState] is [this.pimpl.connectionState] when it runs. *)
Definition transitionToConnectedState (pimplState : ConnectionState) : M State unit :=
  g <- getM;;
  assert (sameState pimplState Connected) (Message "invariant broken");;;
  assert (sameState (_connectionState g) CatchingUp) (Message "invariant broken");;;
  modifyM (set_connectionState Connected);;;
  call (ConnectionStateChanged Connected CatchingUp (Some "caught up")).

(** The adapter's [connectionStateChanged], which the wrapped handler
    calls in place of the owner's. *)
Definition connectionStateChanged (value oldState : ConnectionState)
    (reason : option string) : M State unit :=
  g <- getM;;
  let forward :=
    modifyM (set_connectionState value);;;
    call (ConnectionStateChanged value oldState reason) in
  match value with
  | Connected =>
      assert (sameState (_connectionState g) CatchingUp)
             (Message "connectivity transitions");;;
      assert (defined (catchUpMonitor g))
             (Message "catchUpMonitor should always be set if pendingClientId is set");;;
      call MonitorOnCaughtUp;;;
      modifyM (set_catchUpMonitor
                 (mkMonitor ∘ S ∘ caughtUpListeners <$> catchUpMonitor g))
  | Disconnected =>
      when (defined (catchUpMonitor g)) (call MonitorDispose);;;
      modifyM (set_catchUpMonitor None);;;
      forward
  | CatchingUp =>
      assert (sameState (_connectionState g) Disconnected)
             (Message "connectivity transitions");;;
      assert (negb (defined (catchUpMonitor g)))
             (Message "catchUpMonitor should be gone");;;
      call NewCatchUpMonitor;;;
      modifyM (set_catchUpMonitor (Some (mkMonitor 0)));;;
      forward
  | EstablishingConnection => forward
  end.

(** What reaches the adapter: a transition of the wrapped handler, or
    the monitor's signal, delivered to the listeners registered so far
    (each once) while the wrapped handler is in [pimplState]. *)
Inductive Event : Set :=
  | Inner (value oldState : ConnectionState) (reason : option string)
  | CaughtUp (pimplState : ConnectionState).

Fixpoint times (n : nat) (m : M State unit) : M State unit :=
  match n with
  | O => retM tt
  | S n => m;;; times n m
  end.

Definition step (e : Event) : M State unit :=
  match e with
  | Inner value oldState reason => connectionStateChanged value oldState reason
  | CaughtUp pimplState =>
      g <- getM;;
      match catchUpMonitor g with
      | Some m =>
          modifyM (set_catchUpMonitor (Some (mkMonitor 0)));;;
          times (caughtUpListeners m) (transitionToConnectedState pimplState)
      | None => retM tt
      end
  end.

Fixpoint run (events : list Event) (g : State) : State * list Effect :=
  match events with
  | [] => (g, [])
  | e :: events =>
      let r := step e g in
      let rest := run events (after r) in
      (rest.1, calls r ++ rest.2)
  end.


End Catchup.

(** The transitions to Connected among the calls. *)
Definition isToConnected (e : Effect) : bool :=
  match e with
  | ConnectionStateChanged Connected _ _ => true
  | _ => false
  end.

Definition toConnected (l : list Effect) : list Effect :=
  List.filter isToConnected l.


(** Invariant I1 as section 3 words it: the two ids differ whenever both
    are present. *)
Definition idsDiffer (w : World) : Prop :=
  ∀ c p, clientId w = Some c → pendingClientId w = Some p → c ≠ p.

(** Invariant I5 as section 3 words it: the leave timer is armed only for
    a client id of the quorum while the owner has outstanding ops. *)
Definition leaveTimerJustified (w : World) : Prop :=
  prevClientLeftTimer (handler w) = true →
  (∃ c, clientId w = Some c ∧ hasMember (quorumClients w) c = true)
  ∧ shouldClientJoinWrite w = true.

(** [waiting_for_join] of the contract of [on_connect], step 4: the mode
    is write and the quorum is absent or lacks the id of the connection. *)
Definition waitingForJoin (mode : ConnectionMode) (details : IConnectionDetails)
    (w : World) : Prop :=
  mode = WriteMode
  ∧ match quorumClients w with
    | Some q => q !! details_clientId details = None
    | None => True
    end.

(** A call of [receivedConnectEvent] in state Disconnected as the contract
    of [on_connect] words its outcome: the state is CatchingUp, the pending
    id is the one of the connection and (CatchingUp, Disconnected) has
    been reported; then the join timer is armed, and the call returns,
    exactly when [waiting_for_join]; otherwise the call returns with
    nothing more done when the leave timer is armed, and else it ends
    Connected. *)
Definition connectsAsContracted (mode : ConnectionMode) (details : IConnectionDetails)
    (w : World) : Prop :=
  let r := receivedConnectEvent mode details w in
  let t := ConnectionStateChanged CatchingUp Disconnected None in
  (OnTimer JoinOpTimer TimerStart ∈ calls r ↔ waitingForJoin mode details w)
  ∧ (waitingForJoin mode details w →
     r = mkRes (onHandler (set_joinOpTimer true) (connecting details w))
               [t; OnTimer JoinOpTimer TimerStart] (Returned tt))
  ∧ (¬ waitingForJoin mode details w → prevClientLeftTimer (handler w) = true →
     r = mkRes (connecting details w) [t] (Returned tt))
  ∧ (¬ waitingForJoin mode details w → prevClientLeftTimer (handler w) = false →
     r = mkRes (connected (connecting details w))
               [t; ConnectionStateChanged Connected CatchingUp None] (Returned tt)
     ∧ connectionState (after r) = Connected).


(** The two assertions of [receivedConnectEvent] on the mode: outstanding
    ops (0x30a) and an armed leave timer (0x2a6) each ask for a write
    connection. *)
Definition modeAsserted (mode : ConnectionMode) (w : World) : Prop :=
  (shouldClientJoinWrite w = true → mode = WriteMode)
  ∧ (prevClientLeftTimer (handler w) = true → mode = WriteMode).

(** Scenario S1: a first connection, in read mode. *)
Definition firstConnection : World :=
  (run [Connect ReadMode (mkDetails "c1")] (initialWorld None false)).1.

(** A container that resumes as "c0", still in the quorum, with no
    outstanding ops, once its protocol is initialised. *)
Definition resumedWorld : World :=
  (run [InitProtocol {["c0" := mkClient 1 false]}] (initialWorld (Some "c0") false)).1.

(** A write connection that waits for its join op. *)
Definition joiningWorld : World :=
  (run [InitProtocol ∅; Connect WriteMode (mkDetails "c2")] (initialWorld None true)).1.

(** The only transition to Connected that the adapter lets out. *)
Definition caughtUpTransition : Effect :=
  ConnectionStateChanged Connected CatchingUp (Some "caught up").


(** [w'] is in the connection state of [w], with the same two ids. *)
Definition sameSession (w w' : World) : Prop :=
  connectionState w' = connectionState w
  ∧ clientId w' = clientId w
  ∧ pendingClientId w' = pendingClientId w.

(** One event, summed up: the world stays consistent, its calls are a
    valid walk from the state before to the state after, and a handler
    left CatchingUp was CatchingUp, with the same ids, before. *)
Definition stepsWell (w : World) (r : Res World unit) : Prop :=
  consistent (after r)
  ∧ validWalk (connectionState w) (calls r) (connectionState (after r))
  ∧ (connectionState (after r) = CatchingUp → sameSession w (after r)).

(** The transport connects a disconnected handler only, and the service
    gives every connection a client id of its own: along [events] from
    [w], each connection is received in state Disconnected with an id
    other than the client id of the handler. *)
Fixpoint freshConnections (events : list Event) (w : World) : Prop :=
  match events with
  | [] => True
  | e :: events =>
      match e with
      | Connect _ details =>
          connectionState w = Disconnected
          ∧ clientId w ≠ Some (details_clientId details)
      | _ => True
      end
      ∧ freshConnections events (after (step e w))
  end.

(** The result [r] of the rest of a method, after the calls [l] were made. *)
Definition prefixed {S A} (l : list Effect) (r : Res S A) : Res S A :=
  mkRes (after r) (l ++ calls r) (outcome r).

(** ** Further notions about the handler *)

(** The events that take the handler out of its wait for the leave of the
    previous client: that leave itself, the expiry of the timer, and the
    container being saved. *)
Definition completesLeaveWait (e : Event) (w : World) : bool :=
  match e with
  | RemoveMember id => bool_decide (clientId w = Some id)
  | PrevClientLeftTimerFires | ContainerSaved => true
  | _ => false
  end.

(** The events that clear the leave timer: the ones above, and [dispose]. *)
Definition clearsLeaveTimer (e : Event) (w : World) : bool :=
  match e with
  | Dispose => true
  | _ => completesLeaveWait e w
  end.

(** The transitions of [ts] that are to Connected. *)
Definition toConnectedPairs (ts : list (ConnectionState * ConnectionState))
  : list (ConnectionState * ConnectionState) :=
  List.filter (λ t, sameState t.2 Connected) ts.

(** [client.shouldHaveLeft = true], on a member. *)
Definition flagged (m : ILocalSequencedClient) : ILocalSequencedClient :=
  mkClient (sequenceNumber m) true.

(** What an event does about the client id: it keeps it and reports no
    transition to Connected, or it reports exactly the transition from
    CatchingUp to Connected and the client id is then the pending id. *)
Definition keepsOrPromotes (w : World) (r : Res World unit) : Prop :=
  (toConnected (calls r) = [] ∧ clientId (after r) = clientId w)
  ∨ (toConnected (calls r) = [ConnectionStateChanged Connected CatchingUp None]
     ∧ connectionState (after r) = Connected
     ∧ ∃ p, clientId (after r) = Some p ∧ pendingClientId (after r) = Some p).

(** How far a walk that never enters CatchingUp can go from a state. *)
Definition stepsLeft (s : ConnectionState) : nat :=
  match s with
  | CatchingUp => 2
  | Connected => 1
  | _ => 0
  end.


(** ** Further notions about the catch-up adapter *)

(** The adapter has a monitor exactly while a connection is under way. *)
Definition monitorInStep (g : Catchup.State) : Prop :=
  match Catchup._connectionState g with
  | Disconnected => Catchup.catchUpMonitor g = None
  | CatchingUp | Connected => is_Some (Catchup.catchUpMonitor g)
  | EstablishingConnection => True
  end.

(** Events as a wrapped handler in state [inner] and the monitor produce
    them: every transition starts in the state of the handler and follows
    a legal edge, and the monitor's signal finds the handler in its
    state. *)
Fixpoint fromHandler (inner : ConnectionState) (events : list Catchup.Event) : bool :=
  match events with
  | [] => true
  | Catchup.Inner value oldState _ :: events =>
      sameState oldState inner && legal oldState value && fromHandler value events
  | Catchup.CaughtUp pimplState :: events =>
      sameState pimplState inner && fromHandler inner events
  end.

(** The state of the wrapped handler after [events]. *)
Fixpoint handlerState (inner : ConnectionState) (events : list Catchup.Event)
  : ConnectionState :=
  match events with
  | [] => inner
  | Catchup.Inner value _ _ :: events => handlerState value events
  | Catchup.CaughtUp _ :: events => handlerState inner events
  end.

(** No call of the adapter throws along [events]. *)
Fixpoint allReturn (events : list Catchup.Event) (g : Catchup.State) : bool :=
  match events with
  | [] => true
  | e :: events =>
      returned (Catchup.step e g) && allReturn events (after (Catchup.step e g))
  end.

(** The adapter [g] around a handler in state [inner]: it shows the state
    of the handler, except that it still shows CatchingUp, with its
    listener registered, when the handler is Connected and the monitor
    has not signalled since. *)
Definition follows (inner : ConnectionState) (g : Catchup.State) : Prop :=
  match inner with
  | Disconnected => g = Catchup.mkState Disconnected None
  | CatchingUp => g = Catchup.mkState CatchingUp (Some (Catchup.mkMonitor 0))
  | Connected =>
      g = Catchup.mkState CatchingUp (Some (Catchup.mkMonitor 1))
      ∨ g = Catchup.mkState Connected (Some (Catchup.mkMonitor 0))
  | EstablishingConnection => False
  end.

(** Every transition of [ts] is along a legal edge. *)
Definition edgesLegal (ts : list (ConnectionState * ConnectionState)) : bool :=
  forallb (λ t, legal t.1 t.2) ts.

(** ** BatchManager (container-runtime/src/batchManager.ts) *)

Module BatchManager.

(** A limit or threshold of the options: a number, or [Infinity], the
    default of [minimumBatchSizeInBytes] that switches compression off.
    Sizes are counts of characters, far below 2^53, so the arithmetic of
    the class is that of the integers. *)
Inductive Limit : Set :=
  | Finite (z : Z)
  | Infinity.

(** [size >= limit] *)
Definition reaches (size : Z) (limit : Limit) : bool :=
  match limit with
  | Finite l => (l <=? size)%Z
  | Infinity => false
  end.

(** [limit < size] *)
Definition below (limit : Limit) (size : Z) : bool :=
  match limit with
  | Finite l => (l <? size)%Z
  | Infinity => false
  end.

(** [BatchMessage]: of its fields the class reads [contents] only; the
    reference sequence number tells messages apart. *)
Record BatchMessage : Set := mkMessage {
  contents : option string;
  referenceSequenceNumber : Z
}.

(** [message.contents?.length ?? 0] *)
Definition contentLength (message : BatchMessage) : Z :=
  match contents message with
  | Some s => Z.of_nat (String.length s)
  | None => 0
  end.

Record ICompressionRuntimeOptions : Set := mkCompression {
  minimumBatchSizeInBytes : Limit
}.

Record IBatchManagerOptions : Set := mkOptions {
  hardLimit : Limit;
  softLimit : option Limit;
  compressionOptions : option ICompressionRuntimeOptions
}.

(** The array [pendingBatch] can have empty slots, which assigning a
    larger [length] creates: a slot is [None], and reading it gives
    [undefined]. *)
Record State : Set := mkState {
  pendingBatch : list (option BatchMessage);
  batchContentSize : Z
}.

(** [new BatchManager(logger, options)] *)
Definition new : State := mkState [] 0.

(** The getters [length] and [empty]. *)
Definition length (s : State) : nat := List.length (pendingBatch s).
Definition empty (s : State) : bool := Nat.eqb (length s) 0.

(** [Infinity === (options.compressionOptions?.minimumBatchSizeInBytes ?? Infinity)] *)
Definition compressionOff (options : IBatchManagerOptions) : bool :=
  match compressionOptions options with
  | Some o => match minimumBatchSizeInBytes o with Infinity => true | Finite _ => false end
  | None => true
  end.

Definition push (options : IBatchManagerOptions) (message : BatchMessage) (s : State)
  : State * bool :=
  let contentSize := (batchContentSize s + contentLength message)%Z in
  let opCount := length s in
  let socketMessageSize := (contentSize + 200 * Z.of_nat opCount)%Z in
  if match softLimit options with
     | Some soft =>
         Nat.ltb 0 (length s) && reaches socketMessageSize soft && compressionOff options
     | None => false
     end
  then (s, false)
  else if reaches socketMessageSize (hardLimit options) && compressionOff options
  then (s, false)
  else (mkState (pendingBatch s ++ [Some message]) contentSize, true).

(** [popBatch()]; [compressBatch] is the method of the [OpCompressor]
    of the manager, which is not part of the sources at hand. *)
Definition popBatch
    (compressBatch : list (option BatchMessage) → Z → list (option BatchMessage))
    (options : IBatchManagerOptions) (s : State)
  : State * list (option BatchMessage) :=
  let batch := pendingBatch s in
  let size := batchContentSize s in
  (mkState [] 0,
   if Nat.ltb 0 (List.length batch)
      && match compressionOptions options with
         | Some o => below (minimumBatchSizeInBytes o) size
         | None => false
         end
   then compressBatch batch size
   else batch).

(** [checkpoint()] captures [startPoint]. *)
Definition checkpoint (s : State) : nat := length s.

(** The loop of [rollback], [n] rounds from index [startPoint + n] down:
    the size left, the messages handed to [process] in the order of the
    calls, and whether the loop ran to its end. Reading [contents] of an
    empty slot throws a TypeError, which ends the loop where it is. *)
Fixpoint unwind (n startPoint : nat) (batch : list (option BatchMessage)) (size : Z)
  : Z * list BatchMessage * bool :=
  match n with
  | O => (size, [], true)
  | S n =>
      match batch !! (startPoint + n)%nat with
      | Some (Some message) =>
          let '(size', processed, finished) :=
            unwind n startPoint batch (size - contentLength message)%Z in
          (size', message :: processed, finished)
      | _ => (size, [], false)
      end
  end.

(** [rollback(process)] of the checkpoint [startPoint]: the state after,
    the messages processed, and whether it returned. The assignment
    [pendingBatch.length = startPoint] cuts the array or fills it up with
    empty slots. [process] is taken not to call back into the manager. *)
Definition rollback (startPoint : nat) (s : State)
  : State * list BatchMessage * bool :=
  let '(size, processed, finished) :=
    unwind (length s - startPoint) startPoint (pendingBatch s) (batchContentSize s) in
  if finished
  then (mkState (resize startPoint None (pendingBatch s)) size, processed, true)
  else (mkState (pendingBatch s) size, processed, false).

(** Pushing messages one after the other: the state after and the
    messages that were accepted. *)
Fixpoint pushes (options : IBatchManagerOptions) (messages : list BatchMessage)
    (s : State) : State * list BatchMessage :=
  match messages with
  | [] => (s, [])
  | message :: messages =>
      let first := push options message s in
      let rest := pushes options messages first.1 in
      (rest.1, if first.2 then message :: rest.2 else rest.2)
  end.

(** The content lengths of the messages of a batch, added up. *)
Definition totalLength (batch : list (option BatchMessage)) : Z :=
  foldr (λ slot total, (from_option contentLength 0 slot + total)%Z) 0%Z batch.

(** The manager is in order: no empty slot, and [batchContentSize] is the
    sum of the content lengths. *)
Definition inOrder (s : State) : Prop :=
  Forall is_Some (pendingBatch s) ∧ batchContentSize s = totalLength (pendingBatch s).

(** What a user does with a manager: push, pop, or roll back to a
    checkpoint. *)
Inductive Op : Set :=
  | Push (message : BatchMessage)
  | PopBatch
  | Rollback (startPoint : nat).

Definition step
    (compressBatch : list (option BatchMessage) → Z → list (option BatchMessage))
    (options : IBatchManagerOptions) (op : Op) (s : State) : State :=
  match op with
  | Push message => (push options message s).1
  | PopBatch => (popBatch compressBatch options s).1
  | Rollback startPoint => (rollback startPoint s).1.1
  end.

(** Every rollback of [ops] is to a point the batch has reached. *)
Fixpoint rollbacksInRange
    (compressBatch : list (option BatchMessage) → Z → list (option BatchMessage))
    (options : IBatchManagerOptions) (ops : list Op) (s : State) : Prop :=
  match ops with
  | [] => True
  | op :: ops =>
      match op with
      | Rollback startPoint => (startPoint ≤ length s)%nat
      | _ => True
      end
      ∧ rollbacksInRange compressBatch options ops (step compressBatch options op s)
  end.

End BatchManager.

(** The content lengths of messages, added up. *)
Definition contentLengths (messages : list BatchManager.BatchMessage) : Z :=
  foldr (λ message total, (BatchManager.contentLength message + total)%Z) 0%Z messages.

(** The socket message size that [push] estimates for the batch held. *)
Definition estimatedSize (s : BatchManager.State) : Z :=
  (BatchManager.batchContentSize s + 200 * (Z.of_nat (BatchManager.length s) - 1))%Z.

Definition runOps
    (compressBatch : list (option BatchManager.BatchMessage) → Z
                     → list (option BatchManager.BatchMessage))
    (options : BatchManager.IBatchManagerOptions) (ops : list BatchManager.Op)
    (s : BatchManager.State) : BatchManager.State :=
  foldl (λ s op, BatchManager.step compressBatch options op s) s ops.

(** * Properties *)

(** Evaluation of the model's own definitions; the quorum lookups and the
    comparisons of client ids stay as they are. *)
Ltac eval_model :=
  cbv beta iota zeta delta
    [receivedDisconnectEvent receivedConnectEvent setConnectionState
     applyForConnectedState containerSaved receivedAddMemberEvent
     receivedRemoveMemberEvent prevClientLeftTimer_callback joinOpTimer_callback
     initProtocol dispose startJoinOpTimer stopJoinOpTimer
     prevClientLeftTimer_clear prevClientLeftTimer_restart step
     bindM retM getM modifyM call assert when returned
     after calls outcome
     handler quorumClients shouldClientJoinWrite
     _connectionState _clientId _pendingClientId prevClientLeftTimer joinOpTimer waitEvent
     connectionState clientId pendingClientId waitingForLeaveOp onHandler
     set_connectionState set_clientId set_pendingClientId set_prevClientLeftTimer
     set_joinOpTimer set_waitEvent set_quorumClients set_shouldClientJoinWrite
     markShouldHaveLeft currentClient mayConnect armsLeaveTimer disconnected connected
     connecting details_clientId initialWorld newHandler
     noWaitOnDisconnected connectedStateRejected
     sameState isWrite defined andb orb negb app fmap option_fmap option_map
     default id].

(** Membership in a list of calls that is known in full. *)
Ltac is_call :=
  repeat first [apply list_elem_of_here | apply list_elem_of_further].
Ltac no_call H :=
  repeat (apply elem_of_cons in H as [H|H]; [discriminate H|]);
  by apply elem_of_nil in H.

(** *** Running a method step by step *)

Section Bind.
Context {S A : Type}.
Implicit Types (s : S) (k : unit → M S A).

Lemma bindM_retM {B} (b : B) (k' : B → M S A) s : bindM (retM b) k' s = k' b s.
Proof. unfold bindM, retM. by destruct (k' b s). Qed.

Lemma bindM_getM (k' : S → M S A) s : bindM getM k' s = k' s s.
Proof. unfold bindM, getM. by destruct (k' s s). Qed.

Lemma bindM_modifyM (f : S → S) k s : bindM (modifyM f) k s = k tt (f s).
Proof. unfold bindM, modifyM. by destruct (k tt (f s)). Qed.

Lemma bindM_call (e : Effect) k s :
  bindM (call e) k s =
    mkRes (after (k tt s)) (e :: calls (k tt s)) (outcome (k tt s)).
Proof. unfold bindM, call. by destruct (k tt s). Qed.

Lemma bindM_assert_true (tag : AssertTag) k s : bindM (assert true tag) k s = k tt s.
Proof. unfold bindM, assert. by destruct (k tt s). Qed.

Lemma bindM_returned {B} (m : M S B) (k' : B → M S A) s s1 l1 b :
  m s = mkRes s1 l1 (Returned b) →
  bindM m k' s =
    mkRes (after (k' b s1)) (l1 ++ calls (k' b s1)) (outcome (k' b s1)).
Proof. unfold bindM. intros ->. by destruct (k' b s1). Qed.

End Bind.

Lemma hasMember_lookup (q : Quorum) (c : string) :
  hasMember (Some q) c = true ↔ is_Some (q !! c).
Proof.
  unfold hasMember, getMember, defined. destruct (q !! c); split; done.
Qed.

(** *** The two transitions in closed form *)

Lemma setConnectionState_same (w : World) (value : ConnectionState) (reason : option string) :
  connectionState w = value →
  setConnectionState value reason w =
    mkRes w [SendErrorEvent "setConnectionStateSame" value] (Returned tt).
Proof.
  destruct w as [[s c p lt jt we] q sjw]. intros <-.
  destruct s; reflexivity.
Qed.

Lemma setConnectionState_Disconnected_spec (w : World) (reason : option string) :
  connectionState w ≠ Disconnected →
  setConnectionState Disconnected reason w =
    mkRes (onHandler (disconnected (armsLeaveTimer w)) w)
          ((if joinOpTimer (handler w) then [OnTimer JoinOpTimer TimerClear] else []) ++
           (if armsLeaveTimer w then [OnTimer PrevClientLeftTimer TimerRestart]
            else [noWaitOnDisconnected (defined (currentClient w)) w]) ++
           [ConnectionStateChanged Disconnected (connectionState w) reason])
          (Returned tt).
Proof.
  destruct w as [[s c p lt jt we] q sjw]. intros Hs.
  destruct s; try done; destruct jt, sjw, lt, c as [c|]; eval_model;
    try destruct (hasMember q c); reflexivity.
Qed.

Lemma setConnectionState_Connected_spec (w : World) (reason : option string) :
  connectionState w = CatchingUp →
  setConnectionState Connected reason w =
    mkRes (connected w) [ConnectionStateChanged Connected CatchingUp reason] (Returned tt).
Proof.
  destruct w as [[s c p lt jt we] q sjw]. intros Hs. cbv in Hs. subst s.
  destruct c as [c|]; eval_model; try destruct (hasMember q c); reflexivity.
Qed.

(** C7. A disconnect received while already Disconnected only logs the
    error event [setConnectionStateSame]: the whole world (state, both
    ids, both timers, the quorum) is as before and no transition is
    reported. *)
Theorem receivedDisconnectEvent_when_disconnected (w : World) (reason : string) :
  connectionState w = Disconnected →
  receivedDisconnectEvent reason w =
    mkRes w [SendErrorEvent "setConnectionStateSame" Disconnected] (Returned tt).
Proof. intros Hs. by apply setConnectionState_same. Qed.

Lemma receivedDisconnectEvent_when_disconnected_witness :
  receivedDisconnectEvent "net" (initialWorld (Some "c0") true) =
    mkRes (initialWorld (Some "c0") true)
          [SendErrorEvent "setConnectionStateSame" Disconnected] (Returned tt).
Proof. apply (receivedDisconnectEvent_when_disconnected _ "net"). reflexivity. Defined.

(** C6. A disconnect from a state other than Disconnected restarts the
    leave timer exactly when the client id is found in the quorum, the
    owner has outstanding ops and the timer is not armed; otherwise it
    sends [noWaitOnDisconnected]; a timer that was armed stays armed and
    no call is made on it. *)
Theorem disconnect_arms_leave_timer (w : World) (reason : string) :
  connectionState w ≠ Disconnected →
  let r := receivedDisconnectEvent reason w in
  let found := ∃ c, clientId w = Some c ∧ hasMember (quorumClients w) c = true in
  let arming := found ∧ shouldClientJoinWrite w = true
                ∧ prevClientLeftTimer (handler w) = false in
  returned r = true
  ∧ (OnTimer PrevClientLeftTimer TimerRestart ∈ calls r ↔ arming)
  ∧ (arming → prevClientLeftTimer (handler (after r)) = true)
  ∧ ((∃ inQuorum, SendTelemetryEvent "noWaitOnDisconnected" None
        [("inQuorum", JBool inQuorum);
         ("waitingForLeaveOp", JBool (prevClientLeftTimer (handler w)));
         ("hadOutstandingOps", JBool (shouldClientJoinWrite w))] ∈ calls r
                     ∧ (inQuorum = true ↔ found))
     ↔ ¬ arming)
  ∧ (prevClientLeftTimer (handler w) = true →
     prevClientLeftTimer (handler (after r)) = true
     ∧ ∀ c, OnTimer PrevClientLeftTimer c ∉ calls r).
Proof.
  intros Hs r found arming. subst r. unfold receivedDisconnectEvent.
  rewrite setConnectionState_Disconnected_spec by done.
  assert (Hfound : defined (currentClient w) = true ↔ found).
  { subst found. unfold currentClient. destruct (clientId w) as [c|]; simpl.
    - destruct (hasMember (quorumClients w) c) eqn:E; simpl; split; try done.
      + eauto.
      + intros (c' & [= <-] & ?). congruence.
    - split; [done|]. by intros (? & ? & ?). }
  assert (Harm : armsLeaveTimer w = true ↔ arming).
  { subst arming. unfold armsLeaveTimer. rewrite !andb_true_iff, negb_true_iff.
    rewrite Hfound. tauto. }
  destruct w as [[s c p lt jt we] q sjw]. simpl in *.
  destruct (armsLeaveTimer _) eqn:Earm; simpl.
  - destruct Harm as [Harm _]. specialize (Harm eq_refl).
    assert (lt = false) as -> by apply Harm.
    split_and!; [done| |done| |done].
    + split; [done|]. intros _. destruct jt; is_call.
    + split; [|done]. intros (b & Hin & _). exfalso. destruct jt; no_call Hin.
  - assert (¬ arming) as Hn by (intros H; apply Harm in H; done).
    split_and!; [done| | done | | ].
    + split; [|done]. intros Hin. exfalso.
      unfold noWaitOnDisconnected in Hin. destruct jt; no_call Hin.
    + split; [done|]. intros _. eexists. split; [|exact Hfound].
      unfold noWaitOnDisconnected, waitingForLeaveOp. simpl.
      destruct jt; is_call.
    + intros ->. split; [done|]. intros c0 Hin.
      unfold noWaitOnDisconnected in Hin. destruct jt; no_call Hin.
Qed.

Lemma disconnect_arms_leave_timer_witness :
  connectionState sessionWorld ≠ Disconnected
  ∧ prevClientLeftTimer (handler (after (receivedDisconnectEvent "net" sessionWorld))) = true.
Proof.
  assert (connectionState sessionWorld ≠ Disconnected) as Hs by done.
  split; [exact Hs|].
  destruct (disconnect_arms_leave_timer sessionWorld "net" Hs) as (_ & _ & Harms & _).
  apply Harms. split; [|split]; [|reflexivity..]. exists "c_old". split; reflexivity.
Defined.

(** *** The promotion gate *)

Lemma mayConnect_true (w : World) :
  mayConnect w = true ↔
  (∃ p, pendingClientId w = Some p ∧ pendingClientId w ≠ clientId w
        ∧ hasMember (quorumClients w) p = true)
  ∧ prevClientLeftTimer (handler w) = false.
Proof.
  unfold mayConnect, waitingForLeaveOp.
  rewrite !andb_true_iff, negb_true_iff, bool_decide_eq_true.
  destruct (pendingClientId w) as [p|]; split.
  - intros [[Hne Hq] Ht]. eauto.
  - intros [(p' & [= <-] & Hne & Hq) Ht]. done.
  - by intros [[_ ?] _].
  - by intros [(p' & ? & _) _].
Qed.

Lemma applyForConnectedState_spec (w : World) (source : Source) :
  defined (quorumClients w) = true →
  (prevClientLeftTimer (handler w) = true →
   ∃ c, clientId w = Some c ∧ hasMember (quorumClients w) c = true) →
  (mayConnect w = true → connectionState w = CatchingUp) →
  applyForConnectedState source w =
    if mayConnect w then
      mkRes (connected w)
            ((if waitEvent (handler w) then [PerformanceEventEnd source] else []) ++
             [ConnectionStateChanged Connected CatchingUp None])
            (Returned tt)
    else mkRes w [connectedStateRejected source w] (Returned tt).
Proof.
  intros Hq Hleave Hstate.
  unfold applyForConnectedState.
  rewrite bindM_getM, Hq, bindM_assert_true.
  assert (negb (waitingForLeaveOp w)
          || match clientId w with
             | Some c => hasMember (quorumClients w) c
             | None => false
             end = true) as ->.
  { unfold waitingForLeaveOp. destruct (prevClientLeftTimer (handler w)); [|done].
    destruct Hleave as (c & -> & ->); done. }
  rewrite bindM_assert_true.
  destruct (mayConnect w); [|reflexivity].
  unfold when. destruct (waitEvent (handler w)).
  - rewrite bindM_call, setConnectionState_Connected_spec by auto. done.
  - rewrite bindM_retM, setConnectionState_Connected_spec by auto. done.
Qed.

Lemma consistent_mayConnect (w : World) :
  consistent w → mayConnect w = true → connectionState w = CatchingUp.
Proof.
  intros [Hd Hc _ _ He] ((p & Hp & Hne & _) & _)%mayConnect_true.
  destruct (connectionState w); try done.
  - rewrite Hd in Hp; done.
  - destruct Hc as (c & Hc & Hp'); [done|]. congruence.
Qed.

(** C1. With the quorum present, [applyForConnectedState(source)] moves to
    Connected exactly when a pending client id is present, differs from
    the client id, is in the quorum, and the leave timer is not armed;
    otherwise it sends [connectedStateRejected], of category "error" for
    the source "timeout" and "generic" for the others, and changes nothing.
    The world is any consistent one, as every reachable world is. *)
Theorem applyForConnectedState_promotes_iff (w : World) (source : Source) :
  consistent w →
  is_Some (quorumClients w) →
  let r := applyForConnectedState source w in
  let promote :=
    (∃ p, pendingClientId w = Some p ∧ pendingClientId w ≠ clientId w
          ∧ hasMember (quorumClients w) p = true)
    ∧ prevClientLeftTimer (handler w) = false in
  ((connectionState (after r) = Connected
    ∧ ConnectionStateChanged Connected CatchingUp None ∈ calls r) ↔ promote)
  ∧ (promote →
     r = mkRes (connected w)
           ((if waitEvent (handler w) then [PerformanceEventEnd source] else []) ++
            [ConnectionStateChanged Connected CatchingUp None])
           (Returned tt))
  ∧ (¬ promote →
     r = mkRes w
           [SendTelemetryEvent "connectedStateRejected"
              (Some (if decide (source = src_timeout) then "error" else "generic"))
              [("source", JString (sourceName source));
               ("pendingClientId", JOpt (pendingClientId w));
               ("clientId", JOpt (clientId w));
               ("waitingForLeaveOp", JBool (prevClientLeftTimer (handler w)));
               ("inQuorum", JBool (hasMember (quorumClients w)
                                     (default "" (pendingClientId w))))]]
           (Returned tt)).
Proof.
  intros Hw [q Hq] r promote.
  assert (Hr : r = if mayConnect w then
      mkRes (connected w)
            ((if waitEvent (handler w) then [PerformanceEventEnd source] else []) ++
             [ConnectionStateChanged Connected CatchingUp None])
            (Returned tt)
    else mkRes w [connectedStateRejected source w] (Returned tt)).
  { apply applyForConnectedState_spec.
    - by rewrite Hq.
    - apply Hw.
    - by apply consistent_mayConnect. }
  pose proof (mayConnect_true w) as Hm. fold promote in Hm.
  clearbody r. subst r.
  destruct (mayConnect w).
  - assert promote as Hp by by apply Hm.
    split_and!; [|done|done].
    split; [done|]. intros _. split.
    + unfold connected. by destruct (currentClient w).
    + simpl. destruct (waitEvent (handler w)); is_call.
  - assert (¬ promote) as Hp by (intros Hp; by apply Hm in Hp).
    split_and!; [|done|].
    + split; [|done]. intros [_ Hin]. exfalso.
      unfold connectedStateRejected in Hin. simpl in Hin. no_call Hin.
    + intros _. unfold connectedStateRejected. by destruct source.
Qed.

Lemma applyForConnectedState_promotes_iff_witness :
  consistent (onHandler (set_prevClientLeftTimer false) reconnectingWorld)
  ∧ connectionState
      (after (applyForConnectedState src_removeMemberEvent
                (onHandler (set_prevClientLeftTimer false) reconnectingWorld)))
    = Connected.
Proof.
  assert (consistent (onHandler (set_prevClientLeftTimer false) reconnectingWorld))
    as Hw by (split; done).
  split; [exact Hw|].
  destruct (applyForConnectedState_promotes_iff _ src_removeMemberEvent Hw)
    as (_ & Hpromoted & _); [by eexists|].
  rewrite Hpromoted; [reflexivity|].
  split; [|reflexivity]. exists "c_new". split_and!; [reflexivity|done|reflexivity].
Defined.

(** *** Receiving a connection *)


Lemma receivedConnectEvent_spec (w : World) (mode : ConnectionMode)
    (details : IConnectionDetails) :
  negb (shouldClientJoinWrite w) || isWrite mode = true →
  negb (prevClientLeftTimer (handler w)) || isWrite mode = true →
  receivedConnectEvent mode details w =
    let w1 := connecting details w in
    let t := ConnectionStateChanged CatchingUp (connectionState w) None in
    if isWrite mode && negb (hasMember (quorumClients w) (details_clientId details)) then
      if joinOpTimer (handler w) then mkRes w1 [t] (Threw (Code 0x234))
      else mkRes (onHandler (set_joinOpTimer true) w1)
                 [t; OnTimer JoinOpTimer TimerStart] (Returned tt)
    else if prevClientLeftTimer (handler w) then mkRes w1 [t] (Returned tt)
    else mkRes (connected w1)
               [t; ConnectionStateChanged Connected CatchingUp None] (Returned tt).
Proof.
  destruct w as [[s c p lt jt we] q sjw], details as [id]. simpl.
  intros Hsjw Hleave.
  destruct mode, sjw, lt; try done; clear Hsjw Hleave;
    destruct jt, c as [c|]; eval_model;
    try destruct (hasMember q id); eval_model;
    try destruct (hasMember q c); reflexivity.
Qed.

Lemma hasMember_false (q : option Quorum) (c : string) :
  hasMember q c = false ↔ match q with Some q => q !! c = None | None => True end.
Proof.
  destruct q as [q|]; simpl; [|done].
  unfold getMember. destruct (q !! c); simpl; split; done.
Qed.

Lemma isWrite_true (mode : ConnectionMode) : isWrite mode = true ↔ mode = WriteMode.
Proof. destruct mode; simpl; split; done. Qed.

Lemma implied_write (b : bool) (mode : ConnectionMode) :
  (b = true → mode = WriteMode) → negb b || isWrite mode = true.
Proof. destruct b; simpl; [|done]. intros ->; done. Qed.

(** C5, as stated, fails. A container that resumes as "c0", still in the
    quorum, awaits the leave of "c0" while Disconnected, with no ops
    outstanding. A read connection then trips assertion 0x2a6 before the
    pending id is set or anything is reported, where the contract has the
    call return with the transition reported. *)
Lemma read_connection_refused_while_leave_awaited :
  reachable resumedWorld
  ∧ connectionState resumedWorld = Disconnected
  ∧ receivedConnectEvent ReadMode (mkDetails "c1") resumedWorld
    = mkRes (onHandler (set_connectionState CatchingUp) resumedWorld) []
            (Threw (Code 0x2a6))
  ∧ ¬ connectsAsContracted ReadMode (mkDetails "c1") resumedWorld.
Proof.
  split; [by eexists _, _, _|]. split; [reflexivity|]. split; [reflexivity|].
  intros (_ & _ & Hleave & _).
  assert (¬ waitingForJoin ReadMode (mkDetails "c1") resumedWorld) as Hno
    by (by intros [? _]).
  by specialize (Hleave Hno eq_refl).
Qed.

(** C5, amended. [receivedConnectEvent] in state Disconnected first sets
    the state to CatchingUp and checks its two assertions on the mode.
    When one fails, a read connection with ops outstanding (0x30a) or with
    the leave timer armed (0x2a6), it throws with the pending id not set
    and nothing reported. When they hold, and only then, the call is as
    the contract has it: the pending id is the one of the connection and
    (CatchingUp, Disconnected) is reported; then the join timer is armed
    exactly when the mode is write and the quorum is absent or lacks the
    pending id; otherwise nothing more happens when the leave timer is
    armed, and otherwise the handler is Connected before the call
    returns. *)
Theorem receivedConnectEvent_from_disconnected (w : World) (mode : ConnectionMode)
    (details : IConnectionDetails) :
  consistent w →
  connectionState w = Disconnected →
  let r := receivedConnectEvent mode details w in
  let refused := onHandler (set_connectionState CatchingUp) w in
  (modeAsserted mode w → connectsAsContracted mode details w)
  ∧ (connectsAsContracted mode details w → modeAsserted mode w)
  ∧ (mode = ReadMode → shouldClientJoinWrite w = true →
     r = mkRes refused [] (Threw (Code 0x30a)))
  ∧ (mode = ReadMode → shouldClientJoinWrite w = false →
     prevClientLeftTimer (handler w) = true →
     r = mkRes refused [] (Threw (Code 0x2a6))).
Proof.
  intros Hw Hs r refused.
  assert (Hjoin : joinOpTimer (handler w) = false).
  { destruct (joinOpTimer (handler w)) eqn:E; [|done].
    by destruct (consistent_join w Hw E). }
  assert (Hwait : isWrite mode
                  && negb (hasMember (quorumClients w) (details_clientId details)) = true
                  ↔ waitingForJoin mode details w).
  { unfold waitingForJoin.
    rewrite andb_true_iff, negb_true_iff, isWrite_true, hasMember_false. done. }
  assert (Hfirst : mode = ReadMode → shouldClientJoinWrite w = true →
                   r = mkRes refused [] (Threw (Code 0x30a))).
  { intros -> Hsjw. subst r refused.
    unfold receivedConnectEvent. rewrite bindM_getM, bindM_modifyM.
    cbv zeta. by rewrite Hsjw. }
  assert (Hsecond : mode = ReadMode → shouldClientJoinWrite w = false →
                    prevClientLeftTimer (handler w) = true →
                    r = mkRes refused [] (Threw (Code 0x2a6))).
  { intros -> Hsjw Hlt. subst r refused.
    unfold receivedConnectEvent. rewrite bindM_getM, bindM_modifyM.
    cbv zeta. rewrite Hsjw. simpl. rewrite bindM_assert_true.
    unfold waitingForLeaveOp. by rewrite Hlt. }
  split; [|split; [|by split]].
  - intros [Hsjw Hleave]. unfold connectsAsContracted. fold r.
    subst r. rewrite receivedConnectEvent_spec by by apply implied_write.
    rewrite Hs, Hjoin. cbv zeta.
    destruct (isWrite mode && _).
    + assert (waitingForJoin mode details w) as Hyes by by apply Hwait.
      split_and!; try done. split; [done|]. intros _. simpl. is_call.
    + assert (¬ waitingForJoin mode details w) as Hno
        by (intros H; by apply Hwait in H).
      split_and!; try done.
      * split; [|done]. intros Hin. exfalso.
        destruct (prevClientLeftTimer (handler w)); simpl in Hin; no_call Hin.
      * by intros _ ->.
      * intros _ ->. split; [done|].
        unfold connected. by destruct (currentClient _).
  - intros (_ & _ & Hleave & Hconn). unfold modeAsserted.
    destruct mode; [|done].
    assert (¬ waitingForJoin ReadMode details w) as Hno by (by intros [? _]).
    fold r in Hleave, Hconn.
    destruct (shouldClientJoinWrite w) eqn:Hsjw.
    + exfalso. rewrite (Hfirst eq_refl eq_refl) in Hleave, Hconn.
      destruct (prevClientLeftTimer (handler w)) eqn:Hlt.
      * by specialize (Hleave Hno eq_refl).
      * by destruct (Hconn Hno eq_refl).
    + destruct (prevClientLeftTimer (handler w)) eqn:Hlt; [|done].
      exfalso. rewrite (Hsecond eq_refl eq_refl eq_refl) in Hleave.
      by specialize (Hleave Hno eq_refl).
Qed.

Lemma receivedConnectEvent_from_disconnected_witness :
  consistent (initialWorld None false)
  ∧ after (receivedConnectEvent ReadMode (mkDetails "c1") (initialWorld None false))
    = mkWorld (mkHandler Connected (Some "c1") (Some "c1") false false false) None false.
Proof.
  assert (consistent (initialWorld None false)) as Hw by (split; done).
  split; [exact Hw|].
  destruct (receivedConnectEvent_from_disconnected (initialWorld None false) ReadMode
              (mkDetails "c1") Hw eq_refl) as (Hok & _).
  assert (modeAsserted ReadMode (initialWorld None false)) as Hmode by (split; done).
  destruct (Hok Hmode) as (_ & _ & _ & Hconn).
  destruct Hconn as [Hr _]; [by intros [? _]|done|].
  rewrite Hr. reflexivity.
Defined.





(** A disconnected handler that [receivedConnectEvent] is called on with
    a mode its first assertion refuses: the exception leaves it CatchingUp
    without a pending id and without a reported transition. *)
Example receivedConnectEvent_read_with_outstanding_ops :
  receivedConnectEvent ReadMode (mkDetails "c1") (initialWorld None true)
  = mkRes (onHandler (set_connectionState CatchingUp) (initialWorld None true))
          [] (Threw (Code 0x30a)).
Proof. reflexivity. Qed.

(** *** The timer callbacks *)

(** C8. The callback of the join timer leaves the whole world as it is:
    it returns at once unless the state is CatchingUp, and then only logs
    [NoJoinOp] with the four details. The callback of the leave timer
    asserts that the state is not Connected and then applies for the
    Connected state with source "timeout". *)
Theorem timer_callbacks (w : World) :
  joinOpTimer_callback w =
    mkRes w
      (if sameState (connectionState w) CatchingUp then
         [LogConnectionIssue "NoJoinOp"
            (Some [("quorumInitialized", JBool (defined (quorumClients w)));
                   ("pendingClientId", JOpt (pendingClientId w));
                   ("inQuorum", JBool (hasMember (quorumClients w)
                                         (default "" (pendingClientId w))));
                   ("waitingForLeaveOp", JBool (prevClientLeftTimer (handler w)))])]
       else [])
      (Returned tt)
  ∧ prevClientLeftTimer_callback w =
      if sameState (connectionState w) Connected
      then mkRes w [] (Threw (Code 0x2ac))
      else applyForConnectedState src_timeout w.
Proof.
  split.
  - unfold joinOpTimer_callback, bindM. simpl.
    by destruct (sameState (connectionState w) CatchingUp).
  - unfold prevClientLeftTimer_callback, bindM at 1 2. simpl.
    destruct (sameState (connectionState w) Connected); simpl; [done|].
    by destruct (applyForConnectedState src_timeout w) as [? ? []].
Qed.

(** *** Consistency is invariant *)

Lemma transitions_app (l1 l2 : list Effect) :
  transitions (l1 ++ l2) = transitions l1 ++ transitions l2.
Proof. apply omap_app. Qed.

Lemma consistent_connected_world (w : World) :
  consistent w → mayConnect w = true → consistent (connected w).
Proof.
  intros Hw Hm. pose proof (consistent_mayConnect w Hw Hm) as Hs.
  apply mayConnect_true in Hm as ((p & Hp & _ & _) & Hlt).
  destruct w as [[s c p' lt jt we] q sjw]. cbv in Hs, Hp, Hlt. subst.
  unfold connected. destruct (currentClient _); split; cbn; try done; eauto.
Qed.

(** What a call of [applyForConnectedState] can do to a consistent world:
    nothing, or the one transition from CatchingUp to Connected. *)
Lemma applyForConnectedState_outcome (w : World) (source : Source) :
  consistent w →
  let r := applyForConnectedState source w in
  (after r = w ∧ transitions (calls r) = [])
  ∨ (connectionState w = CatchingUp ∧ mayConnect w = true
     ∧ after r = connected w
     ∧ transitions (calls r) = [(CatchingUp, Connected)]).
Proof.
  intros Hw r. subst r.
  destruct (quorumClients w) as [q|] eqn:Hq.
  - rewrite applyForConnectedState_spec.
    + destruct (mayConnect w) eqn:Hm; [right|left; done].
      split_and!; [by apply consistent_mayConnect|done..|].
      simpl. by destruct (waitEvent (handler w)).
    + by rewrite Hq.
    + apply Hw.
    + by apply consistent_mayConnect.
  - left. unfold applyForConnectedState.
    rewrite bindM_getM, Hq. done.
Qed.

Lemma applyForConnectedState_consistent (w : World) (source : Source) :
  consistent w → consistent (after (applyForConnectedState source w)).
Proof.
  intros Hw.
  destruct (applyForConnectedState_outcome w source Hw) as [[-> _]|(_ & Hm & -> & _)];
    [done|by apply consistent_connected_world].
Qed.

(** Changes that keep a world consistent before a method runs on it. *)
Lemma consistent_clear_leave (w : World) :
  consistent w → consistent (onHandler (set_prevClientLeftTimer false) w).
Proof. intros [Hd Hc Hl Hj He]. split; cbn; try done. Qed.

Lemma consistent_clear_join (w : World) :
  consistent w → consistent (onHandler (set_joinOpTimer false) w).
Proof. intros [Hd Hc Hl Hj He]. split; cbn; try done. Qed.

Lemma consistent_waitEvent (w : World) (b : bool) :
  consistent w → consistent (onHandler (set_waitEvent b) w).
Proof. intros [Hd Hc Hl Hj He]. split; cbn; try done. Qed.

Lemma consistent_outstandingOps (w : World) (b : bool) :
  consistent w → consistent (set_shouldClientJoinWrite b w).
Proof. intros [Hd Hc Hl Hj He]. split; cbn; try done. Qed.

Lemma consistent_addMember (w : World) (q : Quorum) (id : string)
    (m : ILocalSequencedClient) :
  consistent w → quorumClients w = Some q →
  consistent (set_quorumClients (Some (<[id:=m]> q)) w).
Proof.
  intros [Hd Hc Hl Hj He] Hq. split; cbn; try done.
  intros (c & Hcl & Hin)%Hl. exists c. split; [done|].
  rewrite Hq in Hin. apply hasMember_lookup in Hin. apply hasMember_lookup.
  apply lookup_insert_is_Some. destruct (decide (id = c)); auto.
Qed.

Lemma consistent_removeMember (w : World) (q : Quorum) (id : string) :
  consistent w → quorumClients w = Some q →
  clientId w ≠ Some id ∨ prevClientLeftTimer (handler w) = false →
  consistent (set_quorumClients (Some (delete id q)) w).
Proof.
  intros [Hd Hc Hl Hj He] Hq Hid. split; cbn; try done.
  intros Hlt. destruct Hid as [Hid|Hid]; [|congruence].
  destruct (Hl Hlt) as (c & Hcl & Hin). exists c. split; [done|].
  rewrite Hq in Hin. apply hasMember_lookup in Hin. apply hasMember_lookup.
  apply lookup_delete_is_Some. split; [congruence|done].
Qed.

(** *** Walks *)

Lemma walk_app (s : ConnectionState) (ts1 ts2 : list (ConnectionState * ConnectionState)) :
  walk s (ts1 ++ ts2) = walk s ts1 && walk (lastState s ts1) ts2.
Proof.
  revert s. induction ts1 as [|[o v] ts1 IH]; intros s; simpl; [done|].
  rewrite IH. unfold lastState. simpl. by rewrite !andb_assoc.
Qed.

Lemma lastState_app (s : ConnectionState) (ts1 ts2 : list (ConnectionState * ConnectionState)) :
  lastState s (ts1 ++ ts2) = lastState (lastState s ts1) ts2.
Proof. unfold lastState. apply foldl_app. Qed.

Lemma validWalk_nil (s : ConnectionState) (l : list Effect) :
  transitions l = [] → validWalk s l s.
Proof. intros Hl. split; by rewrite Hl. Qed.

Lemma validWalk_app (s s' s'' : ConnectionState) (l1 l2 : list Effect) :
  validWalk s l1 s' → validWalk s' l2 s'' → validWalk s (l1 ++ l2) s''.
Proof.
  intros [Hw1 Hl1 Hn1 Hc1] [Hw2 Hl2 Hn2 Hc2].
  split; rewrite transitions_app.
  - rewrite walk_app, Hw1, Hl1. done.
  - rewrite lastState_app, Hl1. done.
  - unfold noneToCatchingUp in *. rewrite forallb_app, Hn1. done.
  - unfold connectedFromCatchingUp in *. rewrite forallb_app, Hc1. done.
Qed.

Lemma stepsWell_apply (w w2 : World) (source : Source) (l1 : list Effect)
    (r : Res World unit) :
  consistent w2 →
  sameSession w w2 →
  transitions l1 = [] →
  after r = after (applyForConnectedState source w2) →
  calls r = l1 ++ calls (applyForConnectedState source w2) →
  stepsWell w r.
Proof.
  intros Hw2 Hsame Hl1 Hafter Hcalls. unfold stepsWell.
  pose proof Hsame as (Hs & _ & _).
  rewrite Hafter, Hcalls, <- Hs.
  split; [by apply applyForConnectedState_consistent|].
  destruct (applyForConnectedState_outcome w2 source Hw2)
    as [[-> Hts]|(Hcu & Hm & -> & Hts)].
  - split; [|done].
    apply validWalk_app with (connectionState w2); by apply validWalk_nil.
  - assert (connectionState (connected w2) = Connected) as Hconn.
    { unfold connected. by destruct (currentClient _). }
    split; [|by rewrite Hconn].
    apply validWalk_app with (connectionState w2); [by apply validWalk_nil|].
    rewrite Hcu. split; rewrite Hts; done.
Qed.

Lemma stepsWell_disconnect (w : World) (reason : option string) :
  consistent w → stepsWell w (setConnectionState Disconnected reason w).
Proof.
  intros Hw. destruct (decide (connectionState w = Disconnected)) as [Hs|Hs].
  - rewrite setConnectionState_same by done.
    split; [done|split; [by apply validWalk_nil|done]].
  - rewrite setConnectionState_Disconnected_spec by done.
    destruct Hw as [Hd Hc Hl Hj He].
    destruct w as [[s c p lt jt we] q sjw]. cbn in *.
    split.
    + split; cbn; try done.
      unfold armsLeaveTimer, currentClient. cbn.
      destruct lt; cbn.
      * intros _. by apply Hl.
      * rewrite andb_true_r. destruct c as [c|]; [|done].
        destruct (hasMember q c) eqn:Hin; [|done]. eauto.
    + cbn. split; [|done]. split; rewrite !transitions_app.
      all: destruct jt, (armsLeaveTimer _); destruct s; done.
Qed.

(** *** The listeners in closed form *)

Lemma prefixed_nil {S A} (r : Res S A) : prefixed [] r = r.
Proof. by destruct r. Qed.

Lemma receivedAddMemberEvent_spec (w : World) (id : string) :
  receivedAddMemberEvent id w =
    if bool_decide (Some id = pendingClientId w) then
      prefixed
        ((if joinOpTimer (handler w) then [OnTimer JoinOpTimer TimerClear]
          else [LogConnectionIssue "ReceivedJoinOp" None]) ++
         (if prevClientLeftTimer (handler w) then
            [PerformanceEventStart "WaitBeforeClientLeave"
               [("waitOnClientId", JOpt (clientId w));
                ("hadOutstandingOps", JBool (shouldClientJoinWrite w))]]
          else []))
        (applyForConnectedState src_addMemberEvent
           (onHandler (set_waitEvent (waitEvent (handler w) || prevClientLeftTimer (handler w)))
              (onHandler (set_joinOpTimer false) w)))
    else mkRes w [] (Returned tt).
Proof.
  unfold receivedAddMemberEvent. rewrite bindM_getM. unfold when.
  destruct (bool_decide _); [|done].
  destruct w as [[s c p lt jt we] q sjw].
  destruct jt, lt, we;
    repeat (erewrite bindM_returned by reflexivity); reflexivity.
Qed.

Lemma receivedRemoveMemberEvent_spec (w : World) (id : string) :
  receivedRemoveMemberEvent id w =
    if bool_decide (clientId w = Some id) then
      prefixed [OnTimer PrevClientLeftTimer TimerClear]
        (applyForConnectedState src_removeMemberEvent
           (onHandler (set_prevClientLeftTimer false) w))
    else mkRes w [] (Returned tt).
Proof.
  unfold receivedRemoveMemberEvent. rewrite bindM_getM. unfold when.
  destruct (bool_decide _); [|done].
  by erewrite bindM_returned by reflexivity.
Qed.

Lemma containerSaved_spec (w : World) :
  containerSaved w =
    if prevClientLeftTimer (handler w) then
      prefixed [OnTimer PrevClientLeftTimer TimerClear]
        (applyForConnectedState src_containerSaved
           (onHandler (set_prevClientLeftTimer false) w))
    else mkRes w [] (Returned tt).
Proof.
  unfold containerSaved. rewrite bindM_getM. unfold when, waitingForLeaveOp.
  destruct (prevClientLeftTimer _); [|done].
  by erewrite bindM_returned by reflexivity.
Qed.

Lemma prevClientLeftTimer_callback_spec (w : World) :
  prevClientLeftTimer_callback w =
    if sameState (connectionState w) Connected
    then mkRes w [] (Threw (Code 0x2ac))
    else applyForConnectedState src_timeout w.
Proof.
  unfold prevClientLeftTimer_callback. rewrite bindM_getM.
  destruct (sameState (connectionState w) Connected); simpl; [done|].
  by rewrite bindM_assert_true.
Qed.

Lemma joinOpTimer_callback_spec (w : World) :
  joinOpTimer_callback w =
    mkRes w
      (if sameState (connectionState w) CatchingUp then
         [LogConnectionIssue "NoJoinOp"
            (Some [("quorumInitialized", JBool (defined (quorumClients w)));
                   ("pendingClientId", JOpt (pendingClientId w));
                   ("inQuorum", JBool (hasMember (quorumClients w)
                                         (default "" (pendingClientId w))));
                   ("waitingForLeaveOp", JBool (prevClientLeftTimer (handler w)))])]
       else [])
      (Returned tt).
Proof.
  unfold joinOpTimer_callback. rewrite bindM_getM.
  by destruct (sameState (connectionState w) CatchingUp).
Qed.

(** *** Every event but a connection keeps the walk valid *)

Lemma stepsWell_quiet (w : World) (r : Res World unit) :
  consistent (after r) →
  sameSession w (after r) →
  transitions (calls r) = [] →
  stepsWell w r.
Proof.
  intros Hr Hsame Hts. split; [done|]. split; [|done].
  destruct Hsame as (-> & _ & _). by apply validWalk_nil.
Qed.

Lemma stepsWell_prefixed (w w2 : World) (source : Source) (l1 : list Effect) :
  consistent w2 →
  sameSession w w2 →
  transitions l1 = [] →
  stepsWell w (prefixed l1 (applyForConnectedState source w2)).
Proof. intros. by eapply stepsWell_apply. Qed.

Lemma stepsWell_addMember (w : World) (id : string) (m : ILocalSequencedClient) :
  consistent w → stepsWell w (step (AddMember id m) w).
Proof.
  intros Hw. unfold step. rewrite bindM_getM.
  destruct (quorumClients w) as [q|] eqn:Hq; [|by apply stepsWell_quiet].
  rewrite bindM_modifyM, receivedAddMemberEvent_spec.
  pose proof (consistent_addMember w q id m Hw Hq) as Hw1.
  destruct (bool_decide _); [|by apply stepsWell_quiet].
  apply stepsWell_prefixed.
  - by apply consistent_waitEvent, consistent_clear_join.
  - done.
  - by destruct (joinOpTimer _), (prevClientLeftTimer _).
Qed.

Lemma stepsWell_removeMember (w : World) (id : string) :
  consistent w → stepsWell w (step (RemoveMember id) w).
Proof.
  intros Hw. unfold step. rewrite bindM_getM.
  destruct (quorumClients w) as [q|] eqn:Hq; [|by apply stepsWell_quiet].
  rewrite bindM_modifyM, receivedRemoveMemberEvent_spec.
  case_bool_decide as Hid.
  - apply stepsWell_prefixed; [|done..].
    apply (consistent_removeMember (onHandler (set_prevClientLeftTimer false) w) q);
      [by apply consistent_clear_leave|done|by right].
  - apply stepsWell_quiet; [|done..].
    apply consistent_removeMember; [done..|by left].
Qed.

Lemma stepsWell_leaveCallback (w0 w : World) :
  consistent w → sameSession w0 w →
  stepsWell w0 (prevClientLeftTimer_callback w).
Proof.
  intros Hw Hs. rewrite prevClientLeftTimer_callback_spec.
  destruct (sameState _ _); [by apply stepsWell_quiet|].
  rewrite <- (prefixed_nil (applyForConnectedState _ _)).
  by apply stepsWell_prefixed.
Qed.

Lemma stepsWell_joinCallback (w0 w : World) :
  consistent w → sameSession w0 w →
  stepsWell w0 (joinOpTimer_callback w).
Proof.
  intros Hw Hs. rewrite joinOpTimer_callback_spec.
  apply stepsWell_quiet; [done..|]. by destruct (sameState _ _).
Qed.

Lemma stepsWell_initProtocol (w : World) (q : Quorum) :
  consistent w → stepsWell w (step (InitProtocol q) w).
Proof.
  intros Hw. unfold step. rewrite bindM_getM.
  destruct (quorumClients w) as [q0|] eqn:Hq; [by apply stepsWell_quiet|].
  rewrite bindM_modifyM. unfold initProtocol. rewrite bindM_getM. unfold when.
  destruct Hw as [Hd Hc Hl Hj He].
  destruct w as [[s c p lt jt we] q' sjw]. cbn in *. subst q'.
  destruct c as [c|]; cbn.
  - destruct (getMember q c) eqn:Hin; cbn.
    + apply stepsWell_quiet; [|done..]. split; cbn; try done.
      intros _. exists c. by rewrite Hin.
    + apply stepsWell_quiet; [|done..]. split; cbn; try done.
      intros Hlt. by destruct (Hl Hlt) as (? & ? & ?).
  - apply stepsWell_quiet; [|done..]. split; cbn; try done.
    intros Hlt. by destruct (Hl Hlt) as (? & ? & ?).
Qed.

Lemma stepsWell_dispose (w : World) :
  consistent w → stepsWell w (dispose w).
Proof.
  intros Hw. unfold dispose. rewrite bindM_getM.
  destruct (joinOpTimer (handler w)); simpl.
  - by apply stepsWell_quiet.
  - rewrite bindM_assert_true. apply stepsWell_quiet; [|done..].
    by apply consistent_clear_leave.
Qed.

Lemma stepsWell_step (w : World) (e : Event) :
  consistent w →
  (∀ mode details, e ≠ Connect mode details) →
  stepsWell w (step e w).
Proof.
  intros Hw He. destruct e.
  - by apply stepsWell_initProtocol.
  - by apply stepsWell_addMember.
  - by apply stepsWell_removeMember.
  - unfold step. rewrite bindM_getM. unfold when.
    destruct (prevClientLeftTimer (handler w)); [|by apply stepsWell_quiet].
    rewrite bindM_modifyM.
    apply stepsWell_leaveCallback; [by apply consistent_clear_leave|done].
  - unfold step. rewrite bindM_getM. by apply stepsWell_leaveCallback.
  - unfold step. rewrite bindM_getM. unfold when.
    destruct (joinOpTimer (handler w)); [|by apply stepsWell_quiet].
    rewrite bindM_modifyM.
    apply stepsWell_joinCallback; [by apply consistent_clear_join|done].
  - unfold step. rewrite bindM_getM. by apply stepsWell_joinCallback.
  - by destruct (He mode details).
  - unfold step. rewrite bindM_getM. by apply stepsWell_disconnect.
  - unfold step. rewrite bindM_getM, containerSaved_spec.
    destruct (prevClientLeftTimer (handler w)); [|by apply stepsWell_quiet].
    apply stepsWell_prefixed; [by apply consistent_clear_leave|done..].
  - unfold step. rewrite bindM_getM. by apply stepsWell_dispose.
  - unfold step. rewrite bindM_getM. apply stepsWell_quiet; [|done..].
    by apply consistent_outstandingOps.
Qed.

Lemma receivedConnectEvent_consistent (w : World) (mode : ConnectionMode)
    (details : IConnectionDetails) :
  consistent w → consistent (after (receivedConnectEvent mode details w)).
Proof.
  intros [Hd Hc Hl Hj He].
  destruct (negb (shouldClientJoinWrite w) || isWrite mode) eqn:H1;
    [destruct (negb (prevClientLeftTimer (handler w)) || isWrite mode) eqn:H2|].
  - rewrite receivedConnectEvent_spec by done. cbv zeta.
    destruct w as [[s c p lt jt we] q sjw], details as [id]. cbn in *.
    destruct (isWrite mode && _), jt, lt; cbn; try (split; cbn; done).
    all: unfold connected; destruct (currentClient _); split; cbn; try done; eauto.
  - unfold receivedConnectEvent. rewrite bindM_getM, bindM_modifyM.
    cbv zeta. rewrite H1, bindM_assert_true.
    unfold waitingForLeaveOp. rewrite H2. cbn. split; cbn; done.
  - unfold receivedConnectEvent. rewrite bindM_getM, bindM_modifyM.
    cbv zeta. rewrite H1. cbn. split; cbn; done.
Qed.

Lemma step_consistent (w : World) (e : Event) :
  consistent w → consistent (after (step e w)).
Proof.
  intros Hw.
  destruct e; try (by apply stepsWell_step).
  unfold step. rewrite bindM_getM. by apply receivedConnectEvent_consistent.
Qed.

Lemma initialWorld_consistent (clientId : option string) (outstandingOps : bool) :
  consistent (initialWorld clientId outstandingOps).
Proof. split; done. Qed.

Lemma run_consistent (events : list Event) (w : World) :
  consistent w → consistent (run events w).1.
Proof.
  revert w. induction events as [|e events IH]; intros w Hw; simpl; [done|].
  by apply IH, step_consistent.
Qed.

Lemma reachable_consistent (w : World) : reachable w → consistent w.
Proof.
  intros (c & b & events & ->). apply run_consistent, initialWorld_consistent.
Qed.

(** *** Property P6 *)

Lemma run_validWalk (events : list Event) (w : World) :
  consistent w →
  forallb membershipTimerOrDisconnect events = true →
  validWalk (connectionState w) (run events w).2 (connectionState (run events w).1).
Proof.
  revert w. induction events as [|e events IH]; intros w Hw Hev; simpl.
  { by apply validWalk_nil. }
  simpl in Hev. apply andb_true_iff in Hev as [He Hev].
  destruct (stepsWell_step w e Hw) as (Hw' & Hwalk & _).
  { intros mode details ->. done. }
  eapply validWalk_app; [exact Hwalk|]. by apply IH.
Qed.

(** C2 (P6). From a reachable world, whatever membership events, timer
    callbacks and disconnects follow, in whatever order, the transitions
    reported are a walk along the legal edges that starts in the state
    the handler was in and ends in the state it is left in; none of them
    is a transition to CatchingUp, and every one to Connected is from
    CatchingUp. *)
Theorem membership_timer_disconnect_walk (w : World) (events : list Event) :
  reachable w →
  forallb membershipTimerOrDisconnect events = true →
  let ts := transitions (run events w).2 in
  walk (connectionState w) ts = true
  ∧ lastState (connectionState w) ts = connectionState (run events w).1
  ∧ noneToCatchingUp ts = true
  ∧ connectedFromCatchingUp ts = true.
Proof.
  intros Hw Hev. apply reachable_consistent in Hw.
  by destruct (run_validWalk events w Hw Hev).
Qed.

Lemma membership_timer_disconnect_walk_witness :
  transitions (run [JoinOpTimerFires; AddMember "c2" (mkClient 1 false);
                    Disconnect "net"; PrevClientLeftTimerFires] joiningWorld).2
  = [(CatchingUp, Connected); (Connected, Disconnected)]
  ∧ walk (connectionState joiningWorld)
      (transitions (run [JoinOpTimerFires; AddMember "c2" (mkClient 1 false);
                         Disconnect "net"; PrevClientLeftTimerFires] joiningWorld).2)
    = true.
Proof.
  split; [reflexivity|].
  apply (membership_timer_disconnect_walk joiningWorld
           [JoinOpTimerFires; AddMember "c2" (mkClient 1 false);
            Disconnect "net"; PrevClientLeftTimerFires]).
  - by eexists _, _, _.
  - reflexivity.
Defined.

(** *** Invariant I1 *)

(** C3, as stated, fails: after a first read connection the handler is
    Connected and both ids are "c1". *)
Lemma ids_equal_once_connected :
  reachable firstConnection ∧ ¬ idsDiffer firstConnection.
Proof.
  split; [by eexists _, _, _|].
  intros Hdiffer. by apply (Hdiffer "c1" "c1").
Qed.

(** While CatchingUp the two ids differ, as long as connections are fresh. *)
Lemma step_idsDiffer (w : World) (e : Event) :
  consistent w →
  (connectionState w = CatchingUp → idsDiffer w) →
  freshConnections [e] w →
  connectionState (after (step e w)) = CatchingUp → idsDiffer (after (step e w)).
Proof.
  intros Hw Hdiff [Hfresh _] Hcu.
  assert ((∀ mode details, e ≠ Connect mode details) →
          idsDiffer (after (step e w))) as Hother.
  { intros He. destruct (stepsWell_step w e Hw He) as (_ & _ & Hsame).
    destruct (Hsame Hcu) as (Hs & Hc & Hp).
    unfold idsDiffer. rewrite Hc, Hp. apply Hdiff. congruence. }
  destruct e; try (by apply Hother).
  clear Hother. destruct Hfresh as [Hs Hnew]. revert Hcu.
  unfold step. rewrite bindM_getM.
  destruct (negb (shouldClientJoinWrite w) || isWrite mode) eqn:H1;
    [destruct (negb (prevClientLeftTimer (handler w)) || isWrite mode) eqn:H2|].
  - rewrite receivedConnectEvent_spec by done. cbv zeta.
    assert (idsDiffer (connecting details w)) as Hconnecting.
    { intros c p Hc [= <-]. intros ->. by apply Hnew. }
    destruct (isWrite mode && _), (joinOpTimer (handler w)),
      (prevClientLeftTimer (handler w)); try done.
    all: unfold connected; by destruct (currentClient _).
  - intros _. unfold receivedConnectEvent. rewrite bindM_getM, bindM_modifyM.
    cbv zeta. rewrite H1, bindM_assert_true.
    unfold waitingForLeaveOp. rewrite H2. cbn.
    intros c p _ Hp. pose proof (consistent_disconnected w Hw Hs) as Hnone.
    unfold pendingClientId in *. cbn in Hp. congruence.
  - intros _. unfold receivedConnectEvent. rewrite bindM_getM, bindM_modifyM.
    cbv zeta. rewrite H1. cbn.
    intros c p _ Hp. pose proof (consistent_disconnected w Hw Hs) as Hnone.
    unfold pendingClientId in *. cbn in Hp. congruence.
Qed.

Lemma run_idsDiffer (events : list Event) (w : World) :
  consistent w →
  (connectionState w = CatchingUp → idsDiffer w) →
  freshConnections events w →
  connectionState (run events w).1 = CatchingUp → idsDiffer (run events w).1.
Proof.
  revert w. induction events as [|e events IH]; intros w Hw Hdiff Hfresh; simpl; [done|].
  destruct Hfresh as [He Hfresh].
  apply IH; [by apply step_consistent| |done].
  by apply step_idsDiffer.
Qed.

(** C3, amended. In a reachable world that is Connected both ids are
    present and equal; in one that is Disconnected there is no pending
    id; so the two ids can be present and different only while
    CatchingUp. And while CatchingUp they do differ when both are
    present, provided every connection so far was received in state
    Disconnected with a client id other than the handler's. *)
Theorem ids_by_state (w : World) :
  reachable w →
  (connectionState w = Connected →
   ∃ c, clientId w = Some c ∧ pendingClientId w = Some c)
  ∧ (connectionState w = Disconnected → pendingClientId w = None)
  ∧ (∀ c p, clientId w = Some c → pendingClientId w = Some p → c ≠ p →
     connectionState w = CatchingUp)
  ∧ (∀ initialClientId outstandingOps events,
       w = (run events (initialWorld initialClientId outstandingOps)).1 →
       freshConnections events (initialWorld initialClientId outstandingOps) →
       connectionState w ≠ Connected → idsDiffer w).
Proof.
  intros Hw%reachable_consistent. pose proof Hw as [Hd Hc _ _ He].
  split; [done|split; [done|split]].
  - intros c p Hcl Hp Hne. destruct (connectionState w) eqn:Hs; try done.
    + rewrite Hd in Hp; done.
    + destruct Hc as (c' & ? & ?); [done|]. congruence.
  - intros c0 b events -> Hfresh Hs.
    destruct (connectionState _) eqn:Hstate; try done.
    + intros c p _ Hp. by rewrite Hd in Hp.
    + apply run_idsDiffer; done.
Qed.

Lemma ids_by_state_witness :
  ∃ c, clientId firstConnection = Some c ∧ pendingClientId firstConnection = Some c.
Proof.
  apply (ids_by_state firstConnection); [|reflexivity].
  by eexists _, _, _.
Defined.

(** *** Invariant I5 *)

(** C4, as stated, fails: [initProtocol] arms the leave timer for the
    client id of an earlier container that is in the quorum, whatever the
    owner answers to [shouldClientJoinWrite()]. *)
Lemma leave_timer_armed_without_outstanding_ops :
  reachable resumedWorld ∧ ¬ leaveTimerJustified resumedWorld.
Proof.
  split; [by eexists _, _, _|].
  intros Hjust. by destruct Hjust as [_ ?].
Qed.

(** C4, amended. In a reachable world the leave timer is armed only for a
    client id that is present and in the quorum. A disconnect arms it
    only when moreover the owner has outstanding ops; [initProtocol] arms
    it exactly when the client id is in the quorum of the protocol. *)
Theorem leave_timer_for_quorum_client (w : World) :
  reachable w →
  (prevClientLeftTimer (handler w) = true →
   ∃ c, clientId w = Some c ∧ hasMember (quorumClients w) c = true)
  ∧ (∀ reason,
       prevClientLeftTimer (handler w) = false →
       prevClientLeftTimer (handler (after (receivedDisconnectEvent reason w))) = true →
       (∃ c, clientId w = Some c ∧ hasMember (quorumClients w) c = true)
       ∧ shouldClientJoinWrite w = true)
  ∧ (∀ q,
       prevClientLeftTimer (handler w) = false →
       (prevClientLeftTimer (handler (after (initProtocol q w))) = true
        ↔ ∃ c, clientId w = Some c ∧ is_Some (q !! c))).
Proof.
  intros Hw%reachable_consistent. split_and!.
  - apply Hw.
  - intros reason Hoff. unfold receivedDisconnectEvent.
    destruct (decide (connectionState w = Disconnected)) as [Hs|Hs].
    + rewrite setConnectionState_same by done. simpl. congruence.
    + rewrite setConnectionState_Disconnected_spec by done.
      destruct w as [[s c p lt jt we] q sjw]. cbn in *. subst lt.
      unfold armsLeaveTimer, currentClient. cbn.
      destruct c as [c|]; [|done].
      destruct (hasMember q c) eqn:Hin; [|done]. destruct sjw; [|done]. eauto.
  - intros q Hoff. unfold initProtocol. rewrite bindM_getM. unfold when.
    destruct w as [[s c p lt jt we] q' sjw]. cbn in *. subst lt.
    destruct c as [c|]; cbn.
    + unfold getMember. destruct (q !! c) eqn:Hin; cbn.
      * split; [|done]. intros _. exists c. by rewrite Hin.
      * split; [done|]. intros (c' & [= <-] & Hsome). rewrite Hin in Hsome.
        by destruct Hsome.
    + split; [done|]. by intros (? & ? & ?).
Qed.

Lemma leave_timer_for_quorum_client_witness :
  ∃ c, clientId resumedWorld = Some c ∧ hasMember (quorumClients resumedWorld) c = true.
Proof.
  apply (leave_timer_for_quorum_client resumedWorld); [|reflexivity].
  by eexists _, _, _.
Defined.

(** *** The catch-up adapter *)




Lemma Catchup_connectionStateChanged_spec (g : Catchup.State)
    (value oldState : ConnectionState) (reason : option string) :
  Catchup.connectionStateChanged value oldState reason g =
    match value with
    | Connected =>
        if sameState (Catchup._connectionState g) CatchingUp then
          match Catchup.catchUpMonitor g with
          | Some m =>
              mkRes (Catchup.set_catchUpMonitor
                       (Some (Catchup.mkMonitor (S (Catchup.caughtUpListeners m)))) g)
                    [MonitorOnCaughtUp] (Returned tt)
          | None =>
              mkRes g []
                (Threw (Message "catchUpMonitor should always be set if pendingClientId is set"))
          end
        else mkRes g [] (Threw (Message "connectivity transitions"))
    | Disconnected =>
        mkRes (Catchup.mkState Disconnected None)
              ((if defined (Catchup.catchUpMonitor g) then [MonitorDispose] else []) ++
               [ConnectionStateChanged Disconnected oldState reason])
              (Returned tt)
    | CatchingUp =>
        if sameState (Catchup._connectionState g) Disconnected then
          match Catchup.catchUpMonitor g with
          | None =>
              mkRes (Catchup.mkState CatchingUp (Some (Catchup.mkMonitor 0)))
                    [NewCatchUpMonitor; ConnectionStateChanged CatchingUp oldState reason]
                    (Returned tt)
          | Some _ => mkRes g [] (Threw (Message "catchUpMonitor should be gone"))
          end
        else mkRes g [] (Threw (Message "connectivity transitions"))
    | EstablishingConnection =>
        mkRes (Catchup.set_connectionState EstablishingConnection g)
              [ConnectionStateChanged EstablishingConnection oldState reason]
              (Returned tt)
    end.
Proof.
  destruct g as [s [m|]]; destruct value, s; reflexivity.
Qed.

Lemma Catchup_transitionToConnectedState_spec (g : Catchup.State)
    (pimplState : ConnectionState) :
  Catchup.transitionToConnectedState pimplState g =
    if sameState pimplState Connected then
      if sameState (Catchup._connectionState g) CatchingUp then
        mkRes (Catchup.set_connectionState Connected g) [caughtUpTransition] (Returned tt)
      else mkRes g [] (Threw (Message "invariant broken"))
    else mkRes g [] (Threw (Message "invariant broken")).
Proof.
  destruct g as [s m]; destruct pimplState, s; reflexivity.
Qed.






Example catchup_scenario_S7 :
  Catchup.run [Catchup.Inner CatchingUp Disconnected None;
               Catchup.Inner Connected CatchingUp None;
               Catchup.CaughtUp Connected] (Catchup.new Disconnected)
  = (Catchup.mkState Connected (Some (Catchup.mkMonitor 0)),
     [NewCatchUpMonitor; ConnectionStateChanged CatchingUp Disconnected None;
      MonitorOnCaughtUp;
      ConnectionStateChanged Connected CatchingUp (Some "caught up")]).
Proof. reflexivity. Qed.

(** * Further properties of the handler *)

(** ** Disconnecting and disposing *)

(** X1. [receivedDisconnectEvent] never throws, whatever world it is called
    in; it leaves the handler Disconnected and does not touch the client
    id, the quorum or the wait span. From a state other than Disconnected
    it reports exactly the transition to Disconnected, with the reason,
    drops the pending id and leaves the join timer unarmed. *)
Theorem receivedDisconnectEvent_never_throws (w : World) (reason : string) :
  let r := receivedDisconnectEvent reason w in
  returned r = true
  ∧ connectionState (after r) = Disconnected
  ∧ clientId (after r) = clientId w
  ∧ quorumClients (after r) = quorumClients w
  ∧ waitEvent (handler (after r)) = waitEvent (handler w)
  ∧ (connectionState w ≠ Disconnected →
     pendingClientId (after r) = None
     ∧ joinOpTimer (handler (after r)) = false
     ∧ List.filter (λ e, match e with ConnectionStateChanged _ _ _ => true | _ => false end)
         (calls r)
       = [ConnectionStateChanged Disconnected (connectionState w) (Some reason)]).
Proof.
  intros r. subst r. unfold receivedDisconnectEvent.
  destruct (decide (connectionState w = Disconnected)) as [Hs|Hs].
  - rewrite setConnectionState_same by done. by repeat split.
  - rewrite setConnectionState_Disconnected_spec by done.
    repeat split; try done. simpl.
    unfold noWaitOnDisconnected.
    by destruct (joinOpTimer (handler w)), (armsLeaveTimer w).
Qed.

Lemma receivedDisconnectEvent_never_throws_witness :
  pendingClientId (after (receivedDisconnectEvent "net" reconnectingWorld)) = None.
Proof.
  destruct (receivedDisconnectEvent_never_throws reconnectingWorld "net")
    as (_ & _ & _ & _ & _ & Hfrom).
  by apply Hfrom.
Defined.

Lemma dispose_spec (w : World) :
  dispose w =
    if joinOpTimer (handler w) then mkRes w [] (Threw (Code 0x2a5))
    else mkRes (onHandler (set_prevClientLeftTimer false) w)
               [OnTimer PrevClientLeftTimer TimerClear] (Returned tt).
Proof.
  unfold dispose. rewrite bindM_getM.
  destruct (joinOpTimer (handler w)); simpl; [done|].
  by rewrite bindM_assert_true.
Qed.

(** X2. [dispose] throws 0x2a5 exactly when the join timer is armed, and
    then changes nothing; otherwise it cancels the leave timer. After a
    disconnect of a consistent handler it always goes through, and no
    timer is left armed. *)
Theorem dispose_after_disconnect (w : World) (reason : string) :
  consistent w →
  let r := dispose (after (receivedDisconnectEvent reason w)) in
  (returned (dispose w) = false ↔ joinOpTimer (handler w) = true)
  ∧ (returned (dispose w) = false → after (dispose w) = w ∧ calls (dispose w) = [])
  ∧ returned r = true
  ∧ joinOpTimer (handler (after r)) = false
  ∧ prevClientLeftTimer (handler (after r)) = false
  ∧ connectionState (after r) = Disconnected.
Proof.
  intros Hw r.
  split; [|split].
  - rewrite dispose_spec. by destruct (joinOpTimer (handler w)).
  - rewrite dispose_spec. by destruct (joinOpTimer (handler w)).
  - subst r. rewrite dispose_spec.
    assert (joinOpTimer (handler (after (receivedDisconnectEvent reason w))) = false)
      as Hjoin.
    { destruct (decide (connectionState w = Disconnected)) as [Hs|Hs].
      - unfold receivedDisconnectEvent. rewrite setConnectionState_same by done.
        simpl. destruct (joinOpTimer (handler w)) eqn:E; [|done].
        by destruct (consistent_join w Hw E).
      - unfold receivedDisconnectEvent.
        by rewrite setConnectionState_Disconnected_spec. }
    rewrite Hjoin. simpl. repeat split; try done.
    unfold receivedDisconnectEvent.
    destruct (decide (connectionState w = Disconnected)) as [Hs|Hs].
    + by rewrite setConnectionState_same.
    + by rewrite setConnectionState_Disconnected_spec.
Qed.

Lemma dispose_after_disconnect_witness :
  returned (dispose (after (receivedDisconnectEvent "net" joiningWorld))) = true
  ∧ returned (dispose joiningWorld) = false.
Proof.
  assert (consistent joiningWorld) as Hw by (split; done).
  destruct (dispose_after_disconnect joiningWorld "net" Hw) as (Hiff & _ & Hr & _).
  split; [exact Hr|by apply Hiff].
Defined.

(** ** At most one promotion between two connections *)

Lemma toConnected_app (l1 l2 : list Effect) :
  toConnected (l1 ++ l2) = toConnected l1 ++ toConnected l2.
Proof. apply List.filter_app. Qed.

Lemma toConnected_transitions (l : list Effect) :
  length (toConnected l) = length (toConnectedPairs (transitions l)).
Proof.
  induction l as [|e l IH]; [done|].
  destruct e as [value oldState reason| | | | | | | | |]; simpl; try done.
  destruct value; simpl; by rewrite ?IH.
Qed.

Lemma walk_stepsLeft (s : ConnectionState) (ts : list (ConnectionState * ConnectionState)) :
  walk s ts = true → noneToCatchingUp ts = true →
  (length ts ≤ stepsLeft s)%nat
  ∧ (length (toConnectedPairs ts) ≤ (if sameState s CatchingUp then 1 else 0))%nat.
Proof.
  revert s. induction ts as [|[o v] ts IH]; intros s Hwalk Hnone; simpl in *.
  { split; [lia|destruct (sameState s CatchingUp); lia]. }
  apply andb_true_iff in Hwalk as [[Hs Hlegal]%andb_true_iff Hwalk].
  apply andb_true_iff in Hnone as [Hv Hnone].
  destruct (IH v Hwalk Hnone) as [Hlen Hconn].
  destruct o, s, v; simpl in *; try done; lia.
Qed.

(** X3. Between two connections at most one transition to Connected is
    reported: from a reachable world, membership events, timer callbacks
    and disconnects in any number and order report at most one transition
    to Connected, and at most two transitions in all. *)
Theorem one_promotion_per_connection (w : World) (events : list Event) :
  reachable w →
  forallb membershipTimerOrDisconnect events = true →
  (length (toConnected (run events w).2) ≤ 1)%nat
  ∧ (length (transitions (run events w).2) ≤ 2)%nat.
Proof.
  intros Hw%reachable_consistent Hev.
  destruct (run_validWalk events w Hw Hev) as [Hwalk _ Hnone _].
  destruct (walk_stepsLeft _ _ Hwalk Hnone) as [Hlen Hconn].
  rewrite toConnected_transitions. split.
  - destruct (sameState _ _); lia.
  - destruct (connectionState w); simpl in Hlen; lia.
Qed.

Lemma one_promotion_per_connection_witness :
  (length (toConnected
             (run [AddMember "c2" (mkClient 1 false); Disconnect "net";
                   AddMember "c2" (mkClient 1 false); PrevClientLeftTimerFires]
                joiningWorld).2) ≤ 1)%nat.
Proof.
  apply (one_promotion_per_connection joiningWorld
           [AddMember "c2" (mkClient 1 false); Disconnect "net";
            AddMember "c2" (mkClient 1 false); PrevClientLeftTimerFires]).
  - by eexists _, _, _.
  - reflexivity.
Defined.

(** ** While the leave of the previous client is awaited *)

Lemma transitions_nil_toConnected (l : list Effect) :
  transitions l = [] → toConnected l = [].
Proof.
  induction l as [|e l IH]; [done|].
  destruct e; simpl; try done. all: by apply IH.
Qed.

Lemma applyForConnectedState_waiting (w : World) (source : Source) :
  prevClientLeftTimer (handler w) = true →
  after (applyForConnectedState source w) = w
  ∧ toConnected (calls (applyForConnectedState source w)) = [].
Proof.
  intros Hlt. unfold applyForConnectedState. rewrite bindM_getM.
  destruct (defined (quorumClients w)); [|done].
  rewrite bindM_assert_true.
  destruct (negb _ || _); [|done].
  rewrite bindM_assert_true.
  unfold mayConnect, waitingForLeaveOp. rewrite Hlt, andb_false_r. done.
Qed.

Lemma receivedConnectEvent_waiting (w : World) (mode : ConnectionMode)
    (details : IConnectionDetails) :
  prevClientLeftTimer (handler w) = true →
  prevClientLeftTimer (handler (after (receivedConnectEvent mode details w))) = true
  ∧ toConnected (calls (receivedConnectEvent mode details w)) = [].
Proof.
  intros Hlt.
  destruct (negb (shouldClientJoinWrite w) || isWrite mode) eqn:H1;
    [destruct (negb (prevClientLeftTimer (handler w)) || isWrite mode) eqn:H2|].
  - rewrite receivedConnectEvent_spec by done. cbv zeta. rewrite Hlt.
    by destruct (isWrite mode && _), (joinOpTimer (handler w)).
  - unfold receivedConnectEvent. rewrite bindM_getM, bindM_modifyM.
    cbv zeta. rewrite H1, bindM_assert_true.
    unfold waitingForLeaveOp. by rewrite H2.
  - unfold receivedConnectEvent. rewrite bindM_getM, bindM_modifyM.
    cbv zeta. by rewrite H1.
Qed.

(** X4. While the leave timer is armed nothing promotes the handler but
    what ends the wait: an event other than the leave of the client id,
    the expiry of the timer, [containerSaved] and [dispose] reports no
    transition to Connected and leaves the timer armed. This holds of any
    world, and of a new connection and of the join of its id as well. *)
Theorem leave_wait_blocks_promotion (w : World) (e : Event) :
  prevClientLeftTimer (handler w) = true →
  clearsLeaveTimer e w = false →
  toConnected (calls (step e w)) = []
  ∧ prevClientLeftTimer (handler (after (step e w))) = true.
Proof.
  intros Hlt He. unfold step. rewrite bindM_getM. destruct e; try done.
  - destruct (quorumClients w); [done|].
    rewrite bindM_modifyM. unfold initProtocol. rewrite bindM_getM. unfold when.
    destruct (match clientId _ with Some _ => _ | None => _ end); done.
  - destruct (quorumClients w) as [q|]; [|done].
    rewrite bindM_modifyM, receivedAddMemberEvent_spec.
    destruct (bool_decide _); [|done].
    destruct (applyForConnectedState_waiting
                (onHandler (set_waitEvent (waitEvent (handler w) || true))
                   (onHandler (set_joinOpTimer false)
                      (set_quorumClients (Some (<[id:=m]> q)) w)))
                src_addMemberEvent) as [Hafter Hcalls]; [done|].
    simpl in *. rewrite Hlt in *. unfold prefixed. simpl.
    rewrite Hafter, toConnected_app, Hcalls.
    by destruct (joinOpTimer (handler w)).
  - destruct (quorumClients w) as [q|]; [|done].
    rewrite bindM_modifyM, receivedRemoveMemberEvent_spec.
    simpl in *. unfold clientId in *. simpl. by rewrite He.
  - rewrite prevClientLeftTimer_callback_spec.
    destruct (sameState _ _); [done|].
    destruct (applyForConnectedState_waiting w src_timeout Hlt) as [-> ->]. done.
  - unfold when. destruct (joinOpTimer (handler w)); [|done].
    rewrite bindM_modifyM, joinOpTimer_callback_spec. simpl.
    by destruct (sameState _ _).
  - rewrite joinOpTimer_callback_spec. simpl. by destruct (sameState _ _).
  - destruct (receivedConnectEvent_waiting w mode details Hlt). done.
  - unfold receivedDisconnectEvent.
    destruct (decide (connectionState w = Disconnected)) as [Hs|Hs].
    + by rewrite setConnectionState_same.
    + rewrite setConnectionState_Disconnected_spec by done. simpl.
      rewrite Hlt. split; [|done].
      unfold noWaitOnDisconnected.
      by destruct (joinOpTimer (handler w)), (armsLeaveTimer w).
Qed.

Lemma leave_wait_blocks_promotion_witness :
  toConnected (calls (step (AddMember "c_new" (mkClient 2 false)) reconnectingWorld)) = []
  ∧ prevClientLeftTimer
      (handler (after (step (AddMember "c_new" (mkClient 2 false)) reconnectingWorld)))
    = true.
Proof.
  apply (leave_wait_blocks_promotion reconnectingWorld
           (AddMember "c_new" (mkClient 2 false))); reflexivity.
Defined.

(** ** The client id changes only at promotion *)

Lemma connected_ids (w : World) :
  connectionState (connected w) = Connected
  ∧ clientId (connected w) = pendingClientId w
  ∧ pendingClientId (connected w) = pendingClientId w.
Proof. unfold connected. by destruct (currentClient w). Qed.

Lemma keepsOrPromotes_prefixed (w w2 : World) (source : Source) (l1 : list Effect) :
  consistent w2 →
  clientId w2 = clientId w →
  toConnected l1 = [] →
  keepsOrPromotes w (prefixed l1 (applyForConnectedState source w2)).
Proof.
  intros Hw2 Hc Hl1. unfold keepsOrPromotes, prefixed. simpl.
  rewrite toConnected_app, Hl1. simpl.
  destruct (quorumClients w2) as [q|] eqn:Hq.
  - rewrite applyForConnectedState_spec;
      [|by rewrite Hq|apply Hw2|by apply consistent_mayConnect].
    destruct (mayConnect w2) eqn:Hm; [right|left; done].
    apply mayConnect_true in Hm as ((p & Hp & _) & _).
    destruct (connected_ids w2) as (Hs & Hcl & Hpe).
    split; [by destruct (waitEvent (handler w2))|].
    split; [done|]. exists p. simpl. by rewrite Hcl, Hpe.
  - left. unfold applyForConnectedState. rewrite bindM_getM, Hq. done.
Qed.

Lemma keepsOrPromotes_quiet (w : World) (r : Res World unit) :
  toConnected (calls r) = [] → clientId (after r) = clientId w →
  keepsOrPromotes w r.
Proof. by left. Qed.

(** X5. Whatever happens to a consistent handler, its client id changes
    only when the handler is promoted: every event either keeps the client
    id and reports no transition to Connected, or reports exactly one,
    from CatchingUp, and leaves the handler Connected with the pending id
    as its client id. *)
Theorem client_id_changes_only_at_promotion (w : World) (e : Event) :
  consistent w → keepsOrPromotes w (step e w).
Proof.
  intros Hw. unfold step. rewrite bindM_getM. destruct e.
  - destruct (quorumClients w); [by apply keepsOrPromotes_quiet|].
    rewrite bindM_modifyM. unfold initProtocol. rewrite bindM_getM. unfold when.
    destruct (match clientId _ with Some _ => _ | None => _ end);
      by apply keepsOrPromotes_quiet.
  - destruct (quorumClients w) as [q|] eqn:Hq; [|by apply keepsOrPromotes_quiet].
    rewrite bindM_modifyM, receivedAddMemberEvent_spec.
    pose proof (consistent_addMember w q id m Hw Hq) as Hw1.
    destruct (bool_decide _); [|by apply keepsOrPromotes_quiet].
    apply keepsOrPromotes_prefixed.
    + by apply consistent_waitEvent, consistent_clear_join.
    + done.
    + by destruct (joinOpTimer _), (prevClientLeftTimer _).
  - destruct (quorumClients w) as [q|] eqn:Hq; [|by apply keepsOrPromotes_quiet].
    rewrite bindM_modifyM, receivedRemoveMemberEvent_spec.
    case_bool_decide as Hid; [|by apply keepsOrPromotes_quiet].
    apply keepsOrPromotes_prefixed; [|done..].
    apply (consistent_removeMember (onHandler (set_prevClientLeftTimer false) w) q);
      [by apply consistent_clear_leave|done|by right].
  - unfold when. destruct (prevClientLeftTimer (handler w));
      [|by apply keepsOrPromotes_quiet].
    rewrite bindM_modifyM, prevClientLeftTimer_callback_spec.
    destruct (sameState _ _); [by apply keepsOrPromotes_quiet|].
    rewrite <- (prefixed_nil (applyForConnectedState _ _)).
    apply keepsOrPromotes_prefixed; [by apply consistent_clear_leave|done..].
  - rewrite prevClientLeftTimer_callback_spec.
    destruct (sameState _ _); [by apply keepsOrPromotes_quiet|].
    rewrite <- (prefixed_nil (applyForConnectedState _ _)).
    by apply keepsOrPromotes_prefixed.
  - unfold when. destruct (joinOpTimer (handler w));
      [|by apply keepsOrPromotes_quiet].
    rewrite bindM_modifyM, joinOpTimer_callback_spec.
    apply keepsOrPromotes_quiet; [|done]. simpl. by destruct (sameState _ _).
  - rewrite joinOpTimer_callback_spec.
    apply keepsOrPromotes_quiet; [|done]. simpl. by destruct (sameState _ _).
  - destruct (negb (shouldClientJoinWrite w) || isWrite mode) eqn:H1;
      [destruct (negb (prevClientLeftTimer (handler w)) || isWrite mode) eqn:H2|].
    + rewrite receivedConnectEvent_spec by done. cbv zeta.
      destruct (isWrite mode && _), (joinOpTimer (handler w)),
        (prevClientLeftTimer (handler w));
        try (by apply keepsOrPromotes_quiet).
      all: right; destruct (connected_ids (connecting details w)) as (Hs & Hc & Hp).
      all: split; [done|split; [done|]].
      all: exists (details_clientId details); simpl; by rewrite Hc, Hp.
    + unfold receivedConnectEvent. rewrite bindM_getM, bindM_modifyM.
      cbv zeta. rewrite H1, bindM_assert_true.
      unfold waitingForLeaveOp. rewrite H2. by apply keepsOrPromotes_quiet.
    + unfold receivedConnectEvent. rewrite bindM_getM, bindM_modifyM.
      cbv zeta. rewrite H1. by apply keepsOrPromotes_quiet.
  - unfold receivedDisconnectEvent.
    destruct (decide (connectionState w = Disconnected)) as [Hs|Hs].
    + rewrite setConnectionState_same by done. by apply keepsOrPromotes_quiet.
    + rewrite setConnectionState_Disconnected_spec by done.
      apply keepsOrPromotes_quiet; [|done]. simpl.
      unfold noWaitOnDisconnected.
      by destruct (joinOpTimer (handler w)), (armsLeaveTimer w).
  - rewrite containerSaved_spec.
    destruct (prevClientLeftTimer (handler w)); [|by apply keepsOrPromotes_quiet].
    apply keepsOrPromotes_prefixed; [by apply consistent_clear_leave|done..].
  - rewrite dispose_spec.
    destruct (joinOpTimer (handler w)); by apply keepsOrPromotes_quiet.
  - by apply keepsOrPromotes_quiet.
Qed.

Lemma client_id_changes_only_at_promotion_witness :
  keepsOrPromotes joiningWorld (step (AddMember "c2" (mkClient 1 false)) joiningWorld).
Proof.
  apply (client_id_changes_only_at_promotion joiningWorld). split; done.
Defined.

(** ** What completes a connection *)

Lemma applyForConnectedState_promotes (w : World) (source : Source) (p : string) :
  connectionState w = CatchingUp →
  pendingClientId w = Some p →
  clientId w ≠ Some p →
  hasMember (quorumClients w) p = true →
  prevClientLeftTimer (handler w) = false →
  applyForConnectedState source w =
    mkRes (connected w)
          ((if waitEvent (handler w) then [PerformanceEventEnd source] else []) ++
           [ConnectionStateChanged Connected CatchingUp None])
          (Returned tt).
Proof.
  intros Hs Hp Hc Hin Hlt.
  assert (mayConnect w = true) as Hm.
  { apply mayConnect_true. split; [|done]. exists p. split; [done|].
    split; [congruence|done]. }
  rewrite applyForConnectedState_spec, Hm; [done| |congruence|done].
  by destruct (quorumClients w).
Qed.

(** X6. What ends the wait for the leave of the previous client promotes
    the handler when the join of the new id is already in: in state
    CatchingUp with the leave timer armed and a pending id, other than
    the client id, that the quorum knows, the leave of the client id, the
    expiry of the timer and [containerSaved] each return with the handler
    Connected under the pending id, the timer cleared, and the one
    transition from CatchingUp to Connected reported. *)
Theorem leave_wait_completion (w : World) (e : Event) (q : Quorum) (c p : string) :
  connectionState w = CatchingUp →
  quorumClients w = Some q →
  clientId w = Some c →
  pendingClientId w = Some p →
  p ≠ c →
  is_Some (q !! p) →
  prevClientLeftTimer (handler w) = true →
  completesLeaveWait e w = true →
  let r := step e w in
  returned r = true
  ∧ connectionState (after r) = Connected
  ∧ clientId (after r) = Some p
  ∧ prevClientLeftTimer (handler (after r)) = false
  ∧ transitions (calls r) = [(CatchingUp, Connected)].
Proof.
  intros Hs Hq Hc Hp Hne Hin Hlt He r. subst r.
  assert (∀ w2 source l1,
    connectionState w2 = CatchingUp → pendingClientId w2 = Some p →
    clientId w2 = Some c → hasMember (quorumClients w2) p = true →
    prevClientLeftTimer (handler w2) = false → transitions l1 = [] →
    let r := prefixed l1 (applyForConnectedState source w2) in
    returned r = true ∧ connectionState (after r) = Connected
    ∧ clientId (after r) = Some p ∧ prevClientLeftTimer (handler (after r)) = false
    ∧ transitions (calls r) = [(CatchingUp, Connected)]) as Hgo.
  { intros w2 source l1 Hs2 Hp2 Hc2 Hin2 Hlt2 Hl1.
    rewrite (applyForConnectedState_promotes w2 source p); try done; [|congruence].
    destruct (connected_ids w2) as (Hst & Hcl & _).
    unfold prefixed. cbn [after calls outcome returned].
    rewrite transitions_app, Hl1.
    split_and!; try done.
    - unfold connected. by destruct (currentClient w2).
    - by destruct (waitEvent (handler w2)). }
  unfold step. rewrite bindM_getM. destruct e; try done.
  - rewrite Hq, bindM_modifyM, receivedRemoveMemberEvent_spec.
    simpl in He. unfold clientId in *. simpl. rewrite He.
    apply bool_decide_eq_true in He.
    apply Hgo; try done. simpl. apply hasMember_lookup.
    apply lookup_delete_is_Some. split; [congruence|done].
  - unfold when. rewrite Hlt, bindM_modifyM, prevClientLeftTimer_callback_spec.
    unfold connectionState in *. simpl. rewrite Hs. simpl.
    rewrite <- (prefixed_nil (applyForConnectedState _ _)).
    apply Hgo; try done. simpl. rewrite Hq. by apply hasMember_lookup.
  - rewrite containerSaved_spec, Hlt.
    apply Hgo; try done. simpl. rewrite Hq. by apply hasMember_lookup.
Qed.

Lemma leave_wait_completion_witness :
  connectionState (after (step (RemoveMember "c_old") reconnectingWorld)) = Connected
  ∧ clientId (after (step (RemoveMember "c_old") reconnectingWorld)) = Some "c_new".
Proof.
  assert ("c_new" ≠ "c_old") as Hne by done.
  assert (is_Some ((<["c_new" := mkClient 2 false]> {["c_old" := mkClient 1 false]}
                     : Quorum) !! "c_new")) as Hin by by eexists.
  destruct (leave_wait_completion reconnectingWorld (RemoveMember "c_old") _
              "c_old" "c_new" eq_refl eq_refl eq_refl eq_refl Hne Hin eq_refl eq_refl)
    as (_ & Hs & Hc & _).
  exact (conj Hs Hc).
Defined.

(** X7. The join of the pending id completes a connection that waits for
    nothing else: in state CatchingUp, with the quorum present, a pending
    id other than the client id and no leave awaited, the member-added
    event for the pending id returns with the handler Connected under that
    id and the join timer unarmed. The join timer is cleared when it was
    still armed; when it had already fired, [ReceivedJoinOp] is logged
    instead. *)
Theorem join_completes_connection (w : World) (q : Quorum) (p : string)
    (m : ILocalSequencedClient) :
  connectionState w = CatchingUp →
  quorumClients w = Some q →
  pendingClientId w = Some p →
  clientId w ≠ Some p →
  prevClientLeftTimer (handler w) = false →
  let r := step (AddMember p m) w in
  returned r = true
  ∧ connectionState (after r) = Connected
  ∧ clientId (after r) = Some p
  ∧ joinOpTimer (handler (after r)) = false
  ∧ transitions (calls r) = [(CatchingUp, Connected)]
  ∧ (OnTimer JoinOpTimer TimerClear ∈ calls r ↔ joinOpTimer (handler w) = true)
  ∧ (LogConnectionIssue "ReceivedJoinOp" None ∈ calls r ↔ joinOpTimer (handler w) = false).
Proof.
  intros Hs Hq Hp Hc Hlt r. subst r.
  unfold step. rewrite bindM_getM, Hq, bindM_modifyM, receivedAddMemberEvent_spec.
  unfold pendingClientId in *. simpl. rewrite Hp, bool_decide_eq_true_2 by done.
  rewrite (applyForConnectedState_promotes _ src_addMemberEvent p); try done.
  2: { simpl. apply hasMember_lookup. rewrite lookup_insert_eq. by eexists. }
  unfold prefixed. cbn [after calls outcome returned].
  rewrite Hlt, ?orb_false_r.
  match goal with |- context [connected ?w2] =>
    destruct (connected_ids w2) as (Hst & Hcl & _);
    assert (joinOpTimer (handler (connected w2)) = false) as Hjt
      by (unfold connected; by destruct (currentClient w2))
  end.
  split_and!; try done.
  - by destruct (joinOpTimer (handler w)), (waitEvent (handler w)).
  - destruct (joinOpTimer (handler w)), (waitEvent (handler w)); simpl;
      (split; [done|intros _; is_call]) || (split; [intros Hin; no_call Hin|done]).
  - destruct (joinOpTimer (handler w)), (waitEvent (handler w)); simpl;
      (split; [done|intros _; is_call]) || (split; [intros Hin; no_call Hin|done]).
Qed.

Lemma join_completes_connection_witness :
  connectionState (after (step (AddMember "c2" (mkClient 1 false)) joiningWorld))
  = Connected.
Proof.
  assert (clientId joiningWorld ≠ Some "c2") as Hne by done.
  destruct (join_completes_connection joiningWorld ∅ "c2" (mkClient 1 false)
              eq_refl eq_refl eq_refl Hne eq_refl) as (_ & Hs & _).
  exact Hs.
Defined.

(** ** The quorum is only read, but for one flag *)

Lemma connected_quorum (w : World) (q : Quorum) :
  quorumClients w = Some q →
  ∃ q', quorumClients (connected w) = Some q'
        ∧ dom q' = dom q
        ∧ ∀ id, q' !! id =
                if bool_decide (clientId w = Some id) then flagged <$> q !! id
                else q !! id.
Proof.
  intros Hq. unfold connected, currentClient.
  destruct (clientId w) as [c|] eqn:Hc.
  - destruct (hasMember (quorumClients w) c) eqn:Hin; simpl; rewrite Hq in *; simpl.
    + exists (alter flagged c q). split; [done|].
      split; [apply leibniz_equiv, dom_alter|].
      intros id. case_bool_decide as Hid.
      * assert (id = c) as -> by congruence. apply lookup_alter_eq.
      * apply lookup_alter_ne. congruence.
    + exists q. split; [done|]. split; [done|].
      intros id. case_bool_decide as Hid; [|done].
      assert (id = c) as -> by congruence.
      unfold hasMember, getMember, defined in Hin. by destruct (q !! c).
  - simpl. exists q. split; [done|]. split; [done|].
    done.
Qed.

(** X8. The handler only reads the quorum, but for one flag. A disconnect
    leaves it as it is; so does [applyForConnectedState] when it rejects;
    and when a consistent handler is promoted, the quorum keeps its
    members, and each member is as before except the member under the
    previous client id, if there is one, whose [shouldHaveLeft] is now
    set. *)
Theorem quorum_only_flagged (w : World) (q : Quorum) (source : Source)
    (reason : string) :
  consistent w →
  quorumClients w = Some q →
  quorumClients (after (receivedDisconnectEvent reason w)) = Some q
  ∧ (mayConnect w = false →
     quorumClients (after (applyForConnectedState source w)) = Some q)
  ∧ (mayConnect w = true →
     ∃ q', quorumClients (after (applyForConnectedState source w)) = Some q'
           ∧ dom q' = dom q
           ∧ ∀ id, q' !! id =
                   if bool_decide (clientId w = Some id)
                   then flagged <$> q !! id
                   else q !! id).
Proof.
  intros Hw Hq. split; [|split].
  - unfold receivedDisconnectEvent.
    destruct (decide (connectionState w = Disconnected)) as [Hs|Hs].
    + by rewrite setConnectionState_same.
    + by rewrite setConnectionState_Disconnected_spec.
  - intros Hm. rewrite applyForConnectedState_spec, Hm;
      [done|by rewrite Hq|apply Hw|by apply consistent_mayConnect].
  - intros Hm. rewrite applyForConnectedState_spec, Hm;
      [|by rewrite Hq|apply Hw|by apply consistent_mayConnect].
    destruct (connected_quorum w q Hq) as (q' & Hq' & Hdom & Hlook).
    exists q'. by split.
Qed.

Lemma quorum_only_flagged_witness :
  ∃ q', quorumClients
          (after (applyForConnectedState src_removeMemberEvent
                    (onHandler (set_prevClientLeftTimer false) reconnectingWorld)))
        = Some q'
        ∧ q' !! "c_old" = Some (mkClient 1 true)
        ∧ q' !! "c_new" = Some (mkClient 2 false).
Proof.
  assert (consistent (onHandler (set_prevClientLeftTimer false) reconnectingWorld))
    as Hw by (split; done).
  destruct (quorum_only_flagged _ _ src_removeMemberEvent "net" Hw eq_refl)
    as (_ & _ & Hflag).
  destruct (Hflag eq_refl) as (q' & Hq' & _ & Hlook).
  exists q'. split; [exact Hq'|]. by rewrite !Hlook.
Defined.

(** ** When a connection is refused *)



(** ** Which assertions can fail *)




(** ** Who arms the join timer *)

Lemma applyForConnectedState_joinOpTimer (w : World) (source : Source) :
  consistent w →
  joinOpTimer (handler (after (applyForConnectedState source w)))
  = joinOpTimer (handler w).
Proof.
  intros Hw.
  destruct (applyForConnectedState_outcome w source Hw) as [[-> _]|(_ & _ & -> & _)];
    [done|].
  unfold connected. by destruct (currentClient w).
Qed.

(** X11. Only a write connection whose client id the quorum does not
    have arms the join timer: when an event finds the join timer of a
    consistent handler unarmed and leaves it armed, the event is a
    connection in write mode and the quorum is absent or lacks the id of
    the connection. *)
Theorem join_timer_armed_by_write_connection (w : World) (e : Event) :
  consistent w →
  joinOpTimer (handler w) = false →
  joinOpTimer (handler (after (step e w))) = true →
  ∃ details, e = Connect WriteMode details
             ∧ hasMember (quorumClients w) (details_clientId details) = false.
Proof.
  intros Hw Hoff. unfold step. rewrite bindM_getM. destruct e; simpl.
  - destruct (quorumClients w); [(simpl; congruence)|].
    rewrite bindM_modifyM. unfold initProtocol. rewrite bindM_getM. unfold when.
    destruct (match clientId _ with Some _ => _ | None => _ end); simpl; congruence.
  - destruct (quorumClients w) as [q|] eqn:Hq; [|simpl; congruence].
    rewrite bindM_modifyM, receivedAddMemberEvent_spec.
    pose proof (consistent_addMember w q id m Hw Hq) as Hw1.
    destruct (bool_decide _); [|simpl; congruence].
    unfold prefixed. simpl. rewrite applyForConnectedState_joinOpTimer; [done|].
    by apply consistent_waitEvent, consistent_clear_join.
  - destruct (quorumClients w) as [q|] eqn:Hq; [|simpl; congruence].
    rewrite bindM_modifyM, receivedRemoveMemberEvent_spec.
    case_bool_decide as Hid; [|simpl; congruence].
    unfold prefixed. simpl. rewrite applyForConnectedState_joinOpTimer.
    + simpl. congruence.
    + apply (consistent_removeMember (onHandler (set_prevClientLeftTimer false) w) q);
        [by apply consistent_clear_leave|done|by right].
  - unfold when. destruct (prevClientLeftTimer (handler w)); [|simpl; congruence].
    rewrite bindM_modifyM, prevClientLeftTimer_callback_spec.
    destruct (sameState _ _); simpl; [(simpl; congruence)|].
    rewrite applyForConnectedState_joinOpTimer by by apply consistent_clear_leave.
    simpl. congruence.
  - rewrite prevClientLeftTimer_callback_spec.
    destruct (sameState _ _); simpl; [(simpl; congruence)|].
    rewrite applyForConnectedState_joinOpTimer by done. (simpl; congruence).
  - unfold when. rewrite Hoff. simpl. congruence.
  - rewrite joinOpTimer_callback_spec. simpl. congruence.
  - destruct (negb (shouldClientJoinWrite w) || isWrite mode) eqn:H1;
      [destruct (negb (prevClientLeftTimer (handler w)) || isWrite mode) eqn:H2|].
    + rewrite receivedConnectEvent_spec by done. cbv zeta. rewrite Hoff.
      destruct mode; simpl.
      * destruct (prevClientLeftTimer (handler w)); simpl; [(simpl; congruence)|].
        unfold connected. destruct (currentClient _); simpl; congruence.
      * destruct (hasMember (quorumClients w) (details_clientId details)) eqn:Hin;
          simpl.
        -- destruct (prevClientLeftTimer (handler w)); simpl; [(simpl; congruence)|].
           unfold connected. destruct (currentClient _); simpl; congruence.
        -- intros _. by exists details.
    + unfold receivedConnectEvent. rewrite bindM_getM, bindM_modifyM.
      cbv zeta. rewrite H1, bindM_assert_true.
      unfold waitingForLeaveOp. rewrite H2. simpl. congruence.
    + unfold receivedConnectEvent. rewrite bindM_getM, bindM_modifyM.
      cbv zeta. rewrite H1. simpl. congruence.
  - unfold receivedDisconnectEvent.
    destruct (decide (connectionState w = Disconnected)) as [Hs|Hs].
    + rewrite setConnectionState_same by done. simpl. congruence.
    + by rewrite setConnectionState_Disconnected_spec.
  - rewrite containerSaved_spec.
    destruct (prevClientLeftTimer (handler w)); [|simpl; congruence].
    unfold prefixed. simpl.
    rewrite applyForConnectedState_joinOpTimer by by apply consistent_clear_leave.
    simpl. congruence.
  - rewrite dispose_spec. rewrite Hoff. simpl. congruence.
  - simpl. congruence.
Qed.

Lemma join_timer_armed_by_write_connection_witness :
  ∃ details, Connect WriteMode (mkDetails "c2") = Connect WriteMode details
             ∧ hasMember (Some ∅) (details_clientId details) = false.
Proof.
  apply (join_timer_armed_by_write_connection
           (mkWorld (newHandler None) (Some ∅) true)
           (Connect WriteMode (mkDetails "c2"))).
  - split; done.
  - reflexivity.
  - reflexivity.
Defined.

(** * Further properties of the catch-up adapter *)

Lemma Catchup_times_outcome (n : nat) (pimplState : ConnectionState)
    (g : Catchup.State) :
  let r := Catchup.times n (Catchup.transitionToConnectedState pimplState) g in
  (outcome r = Returned tt ∨ outcome r = Threw (Message "invariant broken"))
  ∧ Catchup.catchUpMonitor (after r) = Catchup.catchUpMonitor g
  ∧ (Catchup._connectionState (after r) = Catchup._connectionState g
     ∨ Catchup._connectionState g = CatchingUp
       ∧ Catchup._connectionState (after r) = Connected).
Proof.
  revert g. induction n as [|n IH]; intros g; simpl; [by auto|].
  unfold bindM. rewrite Catchup_transitionToConnectedState_spec.
  destruct (sameState pimplState Connected); [|by auto].
  destruct (sameState (Catchup._connectionState g) CatchingUp) eqn:Hs; [|by auto].
  specialize (IH (Catchup.set_connectionState Connected g)).
  destruct (Catchup.times n _ _) as [g' l' o']. simpl in *.
  destruct IH as (Ho & Hm & Hst). split; [done|]. split; [done|].
  right. destruct g as [[] m]; try done. simpl in *.
  destruct Hst as [?|[? _]]; done.
Qed.

Lemma Catchup_step_monitorInStep (e : Catchup.Event) (g : Catchup.State) :
  monitorInStep g →
  monitorInStep (after (Catchup.step e g))
  ∧ outcome (Catchup.step e g)
    ≠ Threw (Message "catchUpMonitor should always be set if pendingClientId is set")
  ∧ outcome (Catchup.step e g) ≠ Threw (Message "catchUpMonitor should be gone").
Proof.
  intros Hg. destruct e as [value oldState reason|pimplState]; simpl.
  - rewrite Catchup_connectionStateChanged_spec.
    destruct g as [s [m|]]; destruct value, s; cbn in *; try done;
      by destruct Hg.
  - rewrite bindM_getM.
    destruct (Catchup.catchUpMonitor g) as [m|] eqn:Hm; [|by split].
    rewrite bindM_modifyM.
    destruct (Catchup_times_outcome (Catchup.caughtUpListeners m) pimplState
                (Catchup.set_catchUpMonitor (Some (Catchup.mkMonitor 0)) g))
      as (Ho & Hmon & Hst).
    split; [|destruct Ho as [-> | ->]; done].
    unfold monitorInStep in *. rewrite Hmon. simpl in *.
    destruct Hst as [-> | [_ ->]]; [|done].
    destruct (Catchup._connectionState g); try done. congruence.
Qed.

(** X12. The adapter has a monitor exactly while a connection is under
    way: whatever transitions and signals reach an adapter built around a
    disconnected handler, it has no monitor when it shows Disconnected and
    has one when it shows CatchingUp or Connected. So its two assertions
    about the monitor never fail: a call of the adapter can only throw
    "connectivity transitions" or "invariant broken". *)
Theorem catchup_monitor_in_step (events : list Catchup.Event) (e : Catchup.Event) :
  let g := (Catchup.run events (Catchup.new Disconnected)).1 in
  monitorInStep g
  ∧ outcome (Catchup.step e g)
    ≠ Threw (Message "catchUpMonitor should always be set if pendingClientId is set")
  ∧ outcome (Catchup.step e g) ≠ Threw (Message "catchUpMonitor should be gone").
Proof.
  intros g.
  assert (monitorInStep g) as Hg.
  { subst g. generalize (Catchup.new Disconnected),
      (eq_refl : monitorInStep (Catchup.new Disconnected)).
    induction events as [|e' events IH]; intros g Hg; simpl; [done|].
    by apply IH, Catchup_step_monitorInStep. }
  split; [done|]. by apply Catchup_step_monitorInStep.
Qed.

Lemma Catchup_step_follows (inner : ConnectionState) (e : Catchup.Event)
    (g : Catchup.State) :
  follows inner g →
  fromHandler inner [e] = true →
  returned (Catchup.step e g) = true
  ∧ follows (handlerState inner [e]) (after (Catchup.step e g))
  ∧ edgesLegal (transitions (calls (Catchup.step e g))) = true
  ∧ lastState (Catchup._connectionState g) (transitions (calls (Catchup.step e g)))
    = Catchup._connectionState (after (Catchup.step e g)).
Proof.
  intros Hg He. destruct e as [value oldState reason|pimplState]; simpl in *.
  - rewrite Catchup_connectionStateChanged_spec.
    destruct inner, oldState, value; try done; simpl in *;
      repeat match goal with H : _ ∨ _ |- _ => destruct H end; subst g;
      (split; [done|split; [by auto|by split]]).
  - destruct inner, pimplState; try done; simpl in *;
      repeat match goal with H : _ ∨ _ |- _ => destruct H end; subst g;
      (split; [done|split; [by auto|by split]]).
Qed.

Lemma Catchup_run_follows (inner : ConnectionState) (events : list Catchup.Event)
    (g : Catchup.State) :
  follows inner g →
  fromHandler inner events = true →
  allReturn events g = true
  ∧ follows (handlerState inner events) (Catchup.run events g).1
  ∧ edgesLegal (transitions (Catchup.run events g).2) = true
  ∧ lastState (Catchup._connectionState g) (transitions (Catchup.run events g).2)
    = Catchup._connectionState (Catchup.run events g).1.
Proof.
  revert inner g. induction events as [|e events IH]; intros inner g Hg Hev.
  { by simpl. }
  assert (fromHandler inner [e] = true
          ∧ fromHandler (handlerState inner [e]) events = true) as [He Hrest].
  { destruct e; simpl in *.
    - apply andb_true_iff in Hev as [-> ->]. done.
    - apply andb_true_iff in Hev as [-> ->]. done. }
  destruct (Catchup_step_follows inner e g Hg He) as (Hret & Hg' & Hlegal & Hlast).
  destruct (IH _ _ Hg' Hrest) as (Hall & Hfinal & Hlegals & Hlasts).
  assert (handlerState inner (e :: events)
          = handlerState (handlerState inner [e]) events) as -> by by destruct e.
  simpl. rewrite Hret, Hall. split; [done|]. split; [done|].
  rewrite transitions_app, lastState_app, Hlast. split; [|done].
  unfold edgesLegal in *. by rewrite forallb_app, Hlegal, Hlegals.
Qed.

(** X13. Around a handler that starts disconnected and only makes legal
    transitions, the adapter never throws; every transition it reports
    outside is along a legal edge, and the last state reported is the
    state the adapter shows. That state is the state of the handler,
    except that it is still CatchingUp, with the listener registered,
    while the handler is Connected and the monitor has not signalled
    since. *)
Theorem catchup_follows_handler (events : list Catchup.Event) :
  fromHandler Disconnected events = true →
  let g := (Catchup.run events (Catchup.new Disconnected)).1 in
  let ts := transitions (Catchup.run events (Catchup.new Disconnected)).2 in
  allReturn events (Catchup.new Disconnected) = true
  ∧ edgesLegal ts = true
  ∧ lastState Disconnected ts = Catchup._connectionState g
  ∧ (Catchup._connectionState g = handlerState Disconnected events
     ∨ (handlerState Disconnected events = Connected
        ∧ Catchup._connectionState g = CatchingUp
        ∧ Catchup.catchUpMonitor g = Some (Catchup.mkMonitor 1))).
Proof.
  intros Hev g ts.
  destruct (Catchup_run_follows Disconnected events (Catchup.new Disconnected))
    as (Hall & Hfollows & Hlegal & Hlast); [done..|].
  split; [done|]. split; [done|]. split; [done|].
  subst g. destruct (handlerState Disconnected events);
    simpl in Hfollows; try done.
  - left. by rewrite Hfollows.
  - left. by rewrite Hfollows.
  - destruct Hfollows as [-> | ->]; [right|left]; done.
Qed.

Lemma catchup_follows_handler_witness :
  Catchup._connectionState
    (Catchup.run [Catchup.Inner CatchingUp Disconnected None;
                  Catchup.CaughtUp CatchingUp;
                  Catchup.Inner Connected CatchingUp None;
                  Catchup.CaughtUp Connected;
                  Catchup.Inner Disconnected Connected (Some "net")]
       (Catchup.new Disconnected)).1
  = lastState Disconnected
      (transitions
         (Catchup.run [Catchup.Inner CatchingUp Disconnected None;
                       Catchup.CaughtUp CatchingUp;
                       Catchup.Inner Connected CatchingUp None;
                       Catchup.CaughtUp Connected;
                       Catchup.Inner Disconnected Connected (Some "net")]
            (Catchup.new Disconnected)).2).
Proof.
  destruct (catchup_follows_handler
              [Catchup.Inner CatchingUp Disconnected None;
               Catchup.CaughtUp CatchingUp;
               Catchup.Inner Connected CatchingUp None;
               Catchup.CaughtUp Connected;
               Catchup.Inner Disconnected Connected (Some "net")] eq_refl)
    as (_ & _ & Hlast & _).
  symmetry. exact Hlast.
Defined.

(** A disconnect that arrives before the monitor's signal is reported with
    the old state of the handler, Connected, which the adapter never
    reported: the transitions seen outside do not chain. *)
Example catchup_disconnect_before_caught_up :
  transitions
    (Catchup.run [Catchup.Inner CatchingUp Disconnected None;
                  Catchup.Inner Connected CatchingUp None;
                  Catchup.Inner Disconnected Connected (Some "net")]
       (Catchup.new Disconnected)).2
  = [(Disconnected, CatchingUp); (Connected, Disconnected)].
Proof. reflexivity. Qed.

(** * BatchManager *)

Lemma contentLengths_app (l1 l2 : list BatchManager.BatchMessage) :
  contentLengths (l1 ++ l2) = (contentLengths l1 + contentLengths l2)%Z.
Proof. induction l1 as [|m l1 IH]; simpl; [done|]. rewrite IH. lia. Qed.

Lemma totalLength_app (l1 l2 : list (option BatchManager.BatchMessage)) :
  BatchManager.totalLength (l1 ++ l2)
  = (BatchManager.totalLength l1 + BatchManager.totalLength l2)%Z.
Proof.
  unfold BatchManager.totalLength.
  induction l1 as [|m l1 IH]; simpl; [done|]. rewrite IH. lia.
Qed.

Lemma totalLength_messages (messages : list BatchManager.BatchMessage) :
  BatchManager.totalLength (Some <$> messages) = contentLengths messages.
Proof.
  unfold BatchManager.totalLength.
  induction messages as [|m l IH]; [done|].
  rewrite fmap_cons. simpl. by rewrite IH.
Qed.

(** X14. [push] either refuses, and then the manager is as it was, or
    appends the message at the end and adds its content length to the
    size. With compression on (a finite [minimumBatchSizeInBytes]) it
    never refuses. With compression off it accepts exactly when the
    estimate, the content size with the message plus 200 for each op
    already held, stays below the hard limit and, for a batch that is
    not empty, below the soft limit if there is one. *)
Theorem push_limits (options : BatchManager.IBatchManagerOptions)
    (message : BatchManager.BatchMessage) (s : BatchManager.State) :
  let r := BatchManager.push options message s in
  let estimate :=
    (BatchManager.batchContentSize s + BatchManager.contentLength message
     + 200 * Z.of_nat (BatchManager.length s))%Z in
  (r.2 = false → r.1 = s)
  ∧ (r.2 = true →
     r.1 = BatchManager.mkState
             (BatchManager.pendingBatch s ++ [Some message])
             (BatchManager.batchContentSize s + BatchManager.contentLength message))
  ∧ (BatchManager.compressionOff options = false → r.2 = true)
  ∧ (BatchManager.compressionOff options = true →
     (r.2 = true ↔
      BatchManager.reaches estimate (BatchManager.hardLimit options) = false
      ∧ (BatchManager.length s = 0%nat
         ∨ match BatchManager.softLimit options with
           | Some soft => BatchManager.reaches estimate soft = false
           | None => True
           end))).
Proof.
  intros r estimate. subst r estimate. unfold BatchManager.push.
  destruct (BatchManager.compressionOff options);
    destruct (BatchManager.softLimit options) as [soft|];
    destruct (BatchManager.length s) as [|n] eqn:Hn; simpl;
    rewrite ?andb_false_r, ?andb_true_r; simpl;
    repeat match goal with
           | |- context [BatchManager.reaches ?a ?b] =>
               destruct (BatchManager.reaches a b) eqn:?; simpl
           end;
    split_and!; try done; try (split; [done|]); try (split; [|done]);
    try (intros [? [?|?]]; done); try (intros _; split; [done|]; by auto).
Qed.

Lemma push_limits_witness :
  (BatchManager.push (BatchManager.mkOptions (BatchManager.Finite 1000) None None)
     (BatchManager.mkMessage (Some "hello") 7) BatchManager.new).2 = true.
Proof.
  destruct (push_limits (BatchManager.mkOptions (BatchManager.Finite 1000) None None)
              (BatchManager.mkMessage (Some "hello") 7) BatchManager.new)
    as (_ & _ & _ & Hiff).
  apply (Hiff eq_refl). split; [reflexivity|by left].
Defined.

Lemma unwind_added (base rest : list (option BatchManager.BatchMessage))
    (added : list BatchManager.BatchMessage) (size : Z) :
  BatchManager.unwind (length added) (length base)
    (base ++ (Some <$> added) ++ rest) size
  = ((size - contentLengths added)%Z, rev added, true).
Proof.
  revert rest size. induction added as [|x added IH] using rev_ind; intros rest size.
  { simpl. f_equal. f_equal. lia. }
  rewrite length_app, Nat.add_comm. simpl.
  rewrite fmap_app, <- app_assoc. simpl.
  assert ((base ++ (Some <$> added) ++ Some x :: rest) !! (length base + length added)%nat
          = Some (Some x)) as ->.
  { rewrite lookup_app_r by lia.
    replace (length base + length added - length base)%nat
      with (length (Some <$> added) + 0)%nat by (rewrite length_fmap; lia).
    by rewrite lookup_app_r, Nat.add_comm, Nat.add_sub by lia. }
  rewrite (IH (Some x :: rest)), rev_app_distr, contentLengths_app. simpl.
  f_equal. f_equal. lia.
Qed.

Lemma pushes_shape (options : BatchManager.IBatchManagerOptions)
    (messages : list BatchManager.BatchMessage) (s : BatchManager.State) :
  let r := BatchManager.pushes options messages s in
  BatchManager.pendingBatch r.1 = BatchManager.pendingBatch s ++ (Some <$> r.2)
  ∧ BatchManager.batchContentSize r.1
    = (BatchManager.batchContentSize s + contentLengths r.2)%Z.
Proof.
  revert s. induction messages as [|m messages IH]; intros s; simpl.
  { rewrite app_nil_r. split; [done|lia]. }
  destruct (IH (BatchManager.push options m s).1) as [Hbatch Hsize].
  rewrite Hbatch, Hsize. unfold BatchManager.push.
  destruct (match BatchManager.softLimit options with Some _ => _ | None => _ end);
    [done|].
  destruct (_ && _); [done|]. simpl.
  rewrite <- app_assoc. split; [done|lia].
Qed.

(** X15. A checkpoint and its rollback are a round trip over pushes:
    whatever the manager held at the checkpoint, and whichever of the
    messages pushed since were accepted, the rollback returns, leaves the
    manager exactly as it was at the checkpoint, batch and size, and has
    handed to [process] the accepted messages, last pushed first. *)
Theorem rollback_undoes_pushes (options : BatchManager.IBatchManagerOptions)
    (messages : list BatchManager.BatchMessage) (s : BatchManager.State) :
  let pushed := BatchManager.pushes options messages s in
  BatchManager.rollback (BatchManager.checkpoint s) pushed.1
  = (s, rev pushed.2, true).
Proof.
  intros pushed. subst pushed.
  destruct (pushes_shape options messages s) as [Hbatch Hsize].
  unfold BatchManager.rollback, BatchManager.checkpoint, BatchManager.length.
  rewrite Hbatch, Hsize, length_app, length_fmap.
  replace (length (BatchManager.pendingBatch s)
           + length (BatchManager.pushes options messages s).2
           - length (BatchManager.pendingBatch s))%nat
    with (length (BatchManager.pushes options messages s).2) by lia.
  rewrite <- (app_nil_r (Some <$> _)) at 1.
  rewrite unwind_added.
  rewrite resize_app_le, resize_all by lia.
  destruct s as [batch size]. simpl. f_equal. f_equal. f_equal. lia.
Qed.

(** X16. What [popBatch] returns after pushes into a new manager: the
    manager is new again, and the batch is the accepted messages in the
    order they were pushed, handed to the compressor, with the sum of
    their content lengths as size, exactly when there are some and that
    sum is above [minimumBatchSizeInBytes]. A second [popBatch] returns
    the empty batch. *)
Theorem popBatch_returns_accepted
    (compressBatch : list (option BatchManager.BatchMessage) → Z
                     → list (option BatchManager.BatchMessage))
    (options : BatchManager.IBatchManagerOptions)
    (messages : list BatchManager.BatchMessage) :
  let pushed := BatchManager.pushes options messages BatchManager.new in
  let compresses :=
    negb (Nat.eqb (length pushed.2) 0)
    && match BatchManager.compressionOptions options with
       | Some o => BatchManager.below (BatchManager.minimumBatchSizeInBytes o)
                     (contentLengths pushed.2)
       | None => false
       end in
  BatchManager.popBatch compressBatch options pushed.1
  = (BatchManager.new,
     if compresses then compressBatch (Some <$> pushed.2) (contentLengths pushed.2)
     else Some <$> pushed.2)
  ∧ BatchManager.popBatch compressBatch options BatchManager.new
    = (BatchManager.new, []).
Proof.
  intros pushed compresses. subst pushed compresses.
  destruct (pushes_shape options messages BatchManager.new) as [Hbatch Hsize].
  simpl in Hbatch, Hsize. split; [|done].
  unfold BatchManager.popBatch. rewrite Hbatch, Hsize, length_fmap. simpl.
  by destruct (BatchManager.pushes options messages BatchManager.new).2.
Qed.

Lemma dense_messages (batch : list (option BatchManager.BatchMessage)) :
  Forall is_Some batch → ∃ messages, batch = Some <$> messages.
Proof.
  induction 1 as [|slot batch [m ->] _ [ms ->]]; [by exists []|].
  by exists (m :: ms).
Qed.

Lemma contentLengths_nonneg (messages : list BatchManager.BatchMessage) :
  (0 ≤ contentLengths messages)%Z.
Proof.
  induction messages as [|m l IH]; simpl; [done|].
  unfold BatchManager.contentLength. destruct (BatchManager.contents m); lia.
Qed.

Lemma rollback_split (kept added : list BatchManager.BatchMessage) (size : Z) :
  BatchManager.rollback (length kept)
    (BatchManager.mkState (Some <$> (kept ++ added)) size)
  = (BatchManager.mkState (Some <$> kept) (size - contentLengths added),
     rev added, true).
Proof.
  unfold BatchManager.rollback, BatchManager.length. simpl.
  rewrite length_fmap, length_app, fmap_app.
  replace (length kept + length added - length kept)%nat with (length added) by lia.
  rewrite <- (length_fmap Some kept) at 1.
  rewrite <- (app_nil_r (Some <$> added)) at 1.
  rewrite unwind_added.
  rewrite resize_app_le by (rewrite length_fmap; lia).
  rewrite <- (length_fmap Some kept) at 1. by rewrite resize_all.
Qed.

(** Rolling back a batch without empty slots to a point it has reached. *)
Lemma rollback_in_range (messages : list BatchManager.BatchMessage) (size : Z)
    (startPoint : nat) :
  (startPoint ≤ length messages)%nat →
  BatchManager.rollback startPoint (BatchManager.mkState (Some <$> messages) size)
  = (BatchManager.mkState (Some <$> take startPoint messages)
       (size - contentLengths (drop startPoint messages)),
     rev (drop startPoint messages), true).
Proof.
  intros Hk.
  rewrite <- (take_drop startPoint messages) at 1.
  replace startPoint with (length (take startPoint messages)) at 1
    by (rewrite length_take; lia).
  apply rollback_split.
Qed.

Lemma step_inOrder
    (compressBatch : list (option BatchManager.BatchMessage) → Z
                     → list (option BatchManager.BatchMessage))
    (options : BatchManager.IBatchManagerOptions) (op : BatchManager.Op)
    (s : BatchManager.State) :
  BatchManager.inOrder s →
  BatchManager.rollbacksInRange compressBatch options [op] s →
  BatchManager.inOrder (BatchManager.step compressBatch options op s)
  ∧ (BatchManager.compressionOff options = true →
     (BatchManager.empty s = false →
      BatchManager.reaches (estimatedSize s) (BatchManager.hardLimit options) = false) →
     BatchManager.empty (BatchManager.step compressBatch options op s) = false →
     BatchManager.reaches (estimatedSize (BatchManager.step compressBatch options op s))
       (BatchManager.hardLimit options) = false).
Proof.
  intros Hs [Hrange _]. pose proof Hs as [Hdense Hsize].
  destruct (dense_messages _ Hdense) as [messages Hbatch].
  destruct s as [batch size]. simpl in Hbatch, Hsize. subst batch.
  rewrite totalLength_messages in Hsize. subst size.
  destruct op as [m| |k]; simpl.
  - unfold BatchManager.push, BatchManager.length. simpl.
    destruct (match BatchManager.softLimit options with Some _ => _ | None => _ end);
      [by auto|].
    destruct (BatchManager.reaches _ (BatchManager.hardLimit options)
              && BatchManager.compressionOff options) eqn:Hhard; [by auto|].
    simpl. split.
    + split; simpl.
      * apply Forall_app. split; [done|]. repeat constructor. by eexists.
      * rewrite totalLength_app, totalLength_messages. simpl. lia.
    + intros Hoff _ _. rewrite Hoff, andb_true_r in Hhard.
      unfold estimatedSize, BatchManager.length. simpl.
      rewrite length_app, length_fmap in *. simpl.
      replace (contentLengths messages + BatchManager.contentLength m
               + 200 * (Z.of_nat (length messages + 1) - 1))%Z
        with (contentLengths messages + BatchManager.contentLength m
              + 200 * Z.of_nat (length messages))%Z by lia.
      done.
  - split; [|done]. split; [constructor|done].
  - unfold BatchManager.length in Hrange. simpl in Hrange.
    rewrite length_fmap in Hrange.
    rewrite rollback_in_range by done. simpl. split.
    + split; simpl.
      * apply Forall_fmap, Forall_true. intros x. by eexists.
      * rewrite totalLength_messages.
        rewrite <- (take_drop k messages) at 1. rewrite contentLengths_app. lia.
    + intros _ Hbefore Hnonempty.
      unfold BatchManager.empty, estimatedSize, BatchManager.length in *.
      simpl in *. rewrite !length_fmap in *. rewrite length_take in *.
      assert (k ≠ 0)%nat as Hk.
      { intros ->. by rewrite Nat.min_0_l in Hnonempty. }
      assert (length messages ≠ 0)%nat as Hlen by lia.
      specialize (Hbefore (proj2 (Nat.eqb_neq _ _) Hlen)).
      pose proof (contentLengths_nonneg (drop k messages)).
      destruct (BatchManager.hardLimit options) as [h|]; [|done].
      simpl in *. apply Z.leb_gt in Hbefore. apply Z.leb_gt.
      rewrite Nat.min_l by lia. lia.
Qed.

(** X17. The manager stays in order: from a new manager, through pushes,
    [popBatch] and rollbacks to points the batch has reached, the batch
    has no empty slot and [batchContentSize] is the sum of the content
    lengths of the messages held; and with compression off a batch that
    is held, however it came about, has an estimated socket size below
    the hard limit. *)
Theorem manager_stays_in_order
    (compressBatch : list (option BatchManager.BatchMessage) → Z
                     → list (option BatchManager.BatchMessage))
    (options : BatchManager.IBatchManagerOptions) (ops : list BatchManager.Op) :
  BatchManager.rollbacksInRange compressBatch options ops BatchManager.new →
  let s := runOps compressBatch options ops BatchManager.new in
  BatchManager.inOrder s
  ∧ (BatchManager.compressionOff options = true →
     BatchManager.empty s = false →
     BatchManager.reaches (estimatedSize s) (BatchManager.hardLimit options) = false).
Proof.
  intros Hrange s. subst s.
  assert (BatchManager.inOrder BatchManager.new) as Hnew by (split; [constructor|done]).
  assert (BatchManager.compressionOff options = true →
          BatchManager.empty BatchManager.new = false →
          BatchManager.reaches (estimatedSize BatchManager.new)
            (BatchManager.hardLimit options) = false) as Hlimit by done.
  revert Hnew Hlimit Hrange. generalize BatchManager.new.
  induction ops as [|op ops IH]; intros s Hs Hlimit Hrange; simpl; [done|].
  destruct Hrange as [Hop Hrange].
  destruct (step_inOrder compressBatch options op s Hs) as [Hs' Hlimit'].
  { by split. }
  apply IH; [done| |done].
  intros Hoff. by apply Hlimit', Hlimit.
Qed.

Lemma manager_stays_in_order_witness :
  BatchManager.inOrder
    (runOps (λ batch _, batch)
       (BatchManager.mkOptions (BatchManager.Finite 1000) None None)
       [BatchManager.Push (BatchManager.mkMessage (Some "hello") 7);
        BatchManager.Push (BatchManager.mkMessage None 8);
        BatchManager.Rollback 1; BatchManager.PopBatch]
       BatchManager.new).
Proof.
  apply (manager_stays_in_order (λ batch _, batch)
           (BatchManager.mkOptions (BatchManager.Finite 1000) None None)
           [BatchManager.Push (BatchManager.mkMessage (Some "hello") 7);
            BatchManager.Push (BatchManager.mkMessage None 8);
            BatchManager.Rollback 1; BatchManager.PopBatch]).
  simpl. unfold BatchManager.length. simpl. repeat split; lia.
Defined.

(** X18. A rollback to a checkpoint taken before a [popBatch] does not
    bring the messages back: it returns without a call to [process] and
    leaves as many empty slots as the batch had messages at the
    checkpoint, with size 0. The manager is then not [empty] though it
    holds no message, a further [popBatch] hands out the empty slots, and
    a rollback to an earlier checkpoint throws on the first slot it
    reads. *)
Theorem rollback_after_popBatch
    (compressBatch : list (option BatchManager.BatchMessage) → Z
                     → list (option BatchManager.BatchMessage))
    (options : BatchManager.IBatchManagerOptions) (s : BatchManager.State) :
  BatchManager.empty s = false →
  let point := BatchManager.checkpoint s in
  let popped := (BatchManager.popBatch compressBatch options s).1 in
  let slots := BatchManager.mkState (replicate (BatchManager.length s) None) 0 in
  BatchManager.rollback point popped = (slots, [], true)
  ∧ BatchManager.empty slots = false
  ∧ (BatchManager.compressionOptions options = None →
     (BatchManager.popBatch compressBatch options slots).2
     = replicate (BatchManager.length s) None)
  ∧ ∀ earlier, (earlier < point)%nat →
      BatchManager.rollback earlier slots = (slots, [], false).
Proof.
  intros Hnonempty point popped slots. subst point popped slots.
  unfold BatchManager.checkpoint, BatchManager.empty in *.
  apply Nat.eqb_neq in Hnonempty.
  split; [|split; [|split]].
  - unfold BatchManager.rollback, BatchManager.popBatch. simpl.
    by rewrite resize_nil.
  - unfold BatchManager.length at 1. simpl. rewrite length_replicate.
    by apply Nat.eqb_neq.
  - intros Hnone. unfold BatchManager.popBatch. simpl.
    by rewrite Hnone, andb_false_r.
  - intros earlier Hearlier.
    unfold BatchManager.rollback. unfold BatchManager.length at 1. simpl.
    rewrite length_replicate.
    destruct (BatchManager.length s - earlier)%nat as [|n] eqn:Hn; [lia|].
    simpl. rewrite lookup_replicate_2 by lia. done.
Qed.

Lemma rollback_after_popBatch_witness :
  BatchManager.rollback 1
    (BatchManager.popBatch (λ batch _, batch)
       (BatchManager.mkOptions (BatchManager.Finite 1000) None None)
       (BatchManager.mkState [Some (BatchManager.mkMessage (Some "hello") 7)] 5)).1
  = (BatchManager.mkState [None] 0, [], true).
Proof.
  destruct (rollback_after_popBatch (λ batch _, batch)
       (BatchManager.mkOptions (BatchManager.Finite 1000) None None)
       (BatchManager.mkState [Some (BatchManager.mkMessage (Some "hello") 7)] 5)
       eq_refl) as [Hslots _].
  exact Hslots.
Defined.
